(** * Juicy Sounds: a shallow embedding of the audio core

    Embedded from [src/AudioProcessor.ts] (the buffer cache and the two
    playback paths), [src/SoundPack.ts] (unnamed part_007: manifest
    resolution, format choice, [play], gradients and harmonic sets), its
    bundled build (unnamed part_003: the lazy-loading [play] and its
    [getBestFormat]) and [src/throttledSound.ts] ([SynthEngine.playSound]).

    Numbers are modelled as exact rationals [Q]: times, pitches and gains
    are the values the code computes, without floating-point rounding.
    Awaited platform results (fetch, decode, context creation) are inputs
    to the model. *)

From Stdlib Require Import List String Ascii ZArith QArith Bool Lia Permutation.
From Stdlib Require Import Qminmax Qround Reals Qreals Lra.
Import ListNotations.
Open Scope string_scope.

(* ================================================================= *)
(** ** Shared data *)

(** JS [Math.max(lo, Math.min(hi, x))]. *)
Definition clamp (lo hi x : Q) : Q := Qmax lo (Qmin hi x).

(** [x ?? d] / [x || d] on an optional number. *)
Definition default {A} (d : A) (o : option A) : A :=
  match o with Some v => v | None => d end.

(** Errors raised along the load / play paths. *)
Inductive err :=
| ErrNotFound (path : string)   (* "Sound not found in manifest" *)
| ErrNoContext                  (* "AudioContext not available" *)
| ErrFetch                      (* fetch() rejected *)
| ErrHttp (status : Z)          (* "Failed to load sound: <status>" *)
| ErrDecode.                    (* arrayBuffer() / decodeAudioData failed *)

Inductive result (A : Type) :=
| Ok (a : A)
| Err (e : err).
Arguments Ok {A} a.
Arguments Err {A} e.

(** A decoded [AudioBuffer], identified by its object reference. *)
Definition buf := nat.

(** [PlaybackOptions] of [AudioProcessor.ts]. *)
Record playback_options := {
  po_pitch : option Q;
  po_volume : option Q;
  po_detune : option Q;
  po_playbackRate : option Q
}.

Definition no_options : playback_options :=
  {| po_pitch := None; po_volume := None; po_detune := None;
     po_playbackRate := None |}.

(** [{ ...d, ...o }]: a field given by [o] wins. *)
Definition merge_options (d o : playback_options) : playback_options :=
  {| po_pitch := match po_pitch o with Some v => Some v | None => po_pitch d end;
     po_volume := match po_volume o with Some v => Some v | None => po_volume d end;
     po_detune := match po_detune o with Some v => Some v | None => po_detune d end;
     po_playbackRate :=
       match po_playbackRate o with Some v => Some v | None => po_playbackRate d end |}.

(* ================================================================= *)
(** ** Manifest and path resolution ([SoundPack.ts]) *)

Inductive audio_format := Mp3 | Ogg | Wav | Webm.

Definition format_ext (f : audio_format) : string :=
  match f with Mp3 => "mp3" | Ogg => "ogg" | Wav => "wav" | Webm => "webm" end.

Inductive fallback_strategy := FSynth | FSilence | FError.

Record formats_cfg := {
  preferred : list audio_format;
  fallback : fallback_strategy
}.

Record sound_variant := {
  sv_default : string;
  sv_variants : option (list string);
  sv_pitch : option Q;
  sv_volume : option Q
}.

(** [string | SoundVariant] *)
Inductive sound_entry :=
| SEFile (file : string)
| SEVariant (v : sound_variant).

Record manifest := {
  m_name : string;
  m_sounds : list (string * list (string * sound_entry));
  m_formats : option formats_cfg
}.

Fixpoint assoc {A} (k : string) (l : list (string * A)) : option A :=
  match l with
  | [] => None
  | (k', v) :: l' => if String.eqb k k' then Some v else assoc k l'
  end.

(** [path.split('.')] *)
Fixpoint split_dot_aux (acc : string) (s : string) : list string :=
  match s with
  | EmptyString => [acc]
  | String c s' =>
      if Ascii.eqb c "."%char then acc :: split_dot_aux EmptyString s'
      else split_dot_aux (acc ++ String c EmptyString) s'
  end.

Definition split_dot (s : string) : list string := split_dot_aux EmptyString s.

(** [const [category, action = 'default'] = path.split('.')] *)
Definition path_parts (path : string) : string * string :=
  match split_dot path with
  | c :: a :: _ => (c, a)
  | [c] => (c, "default")
  | [] => (EmptyString, "default")
  end.

(** [this.manifest.sounds[category]?.[action]], with JS truthiness:
    an empty file name counts as missing. *)
Definition lookup_sound (m : manifest) (path : string) : option sound_entry :=
  let '(category, action) := path_parts path in
  match assoc category (m_sounds m) with
  | None => None
  | Some actions =>
      match assoc action actions with
      | Some (SEFile EmptyString) => None
      | r => r
      end
  end.

(** [resolveSound] *)
Definition resolveSound (m : manifest) (path : string)
  : result (string * playback_options) :=
  match lookup_sound m path with
  | None => Err (ErrNotFound path)
  | Some (SEFile f) => Ok (f, no_options)
  | Some (SEVariant v) =>
      Ok (sv_default v,
          {| po_pitch := sv_pitch v; po_volume := sv_volume v;
             po_detune := None; po_playbackRate := None |})
  end.

(** [s.replace(/\.[^.]+$/, '')]: the only place the pattern can match
    is a dot followed by at least one character and no further dot. *)
Fixpoint has_dot (s : string) : bool :=
  match s with
  | EmptyString => false
  | String c s' => Ascii.eqb c "."%char || has_dot s'
  end.

Definition nonempty (s : string) : bool :=
  match s with EmptyString => false | _ => true end.

Fixpoint strip_ext (s : string) : string :=
  match s with
  | EmptyString => EmptyString
  | String c s' =>
      if Ascii.eqb c "."%char && nonempty s' && negb (has_dot s')
      then EmptyString
      else String c (strip_ext s')
  end.

(** [this.formatSupport.get(format)] is truthy *)
Definition format_support := audio_format -> bool.

Fixpoint first_supported (support : format_support) (l : list audio_format)
  : option audio_format :=
  match l with
  | [] => None
  | f :: l' => if support f then Some f else first_supported support l'
  end.

(* ================================================================= *)
(** ** Playback pipeline ([WebAudioProcessor.playWithPitch] and
    [WebAudioProcessor.playWithEffects]) *)

(** A value written to [source.playbackRate.value]:
    [Math.pow(2, e)] or a literal. *)
Inductive rate_write :=
| RPow2 (e : Q)
| RLit (q : Q).

(** The number a rate write stores: [Math.pow(2, e)] read over the reals. *)
Definition rate_value (w : rate_write) : R :=
  match w with
  | RPow2 e => Rpower 2 (Q2R e)
  | RLit q => Q2R q
  end.

(** Automation calls on an [AudioParam]. Times are absolute. *)
Inductive param_event :=
| SetValueAtTime (v t : Q)
| LinearRampTo (v t : Q)
| SetValue (v : Q).

(** Nodes inserted between the source and the final gain. *)
Inductive effect_node :=
| Lowpass (freq : Q)
| Highpass (freq : Q)
| DelayMix (delayTime feedback mix : Q).

(** The started [AudioBufferSourceNode] with the graph built around it. *)
Record source := {
  src_buffer : buf;
  src_rate_writes : list rate_write;
  src_detune : option Q;
  src_effects : list effect_node;
  src_gain : list param_event;
  src_started : bool
}.

(** The pitch step shared by both paths. *)
Definition pitch_write (o : playback_options) : list rate_write :=
  match po_pitch o with
  | Some p => let clampedPitch := clamp (-24) 24 p in [RPow2 (clampedPitch / 12)]
  | None => []
  end.

(** [playWithPitch(url, options)]: [ctx] tells whether a context exists
    after [initContext], [load] is the outcome of [loadSound(url)], [now]
    is [context.currentTime]. *)
Definition playWithPitch (now : Q) (ctx : bool) (load : result buf)
  (options : playback_options) : result source :=
  if negb ctx then Err ErrNoContext else
  match load with
  | Err e => Err e
  | Ok audioBuffer =>
      let w_rate :=
        match po_playbackRate options with
        | Some r => [RLit (clamp (1 # 4) 4 r)]
        | None => []
        end in
      let targetVolume := clamp 0 1 (default 1 (po_volume options)) in
      Ok {| src_buffer := audioBuffer;
            src_rate_writes := pitch_write options ++ w_rate;
            src_detune := option_map (clamp (-100) 100) (po_detune options);
            src_effects := [];
            src_gain := [SetValueAtTime 0 now; LinearRampTo targetVolume (now + (1 # 100))];
            src_started := true |}
  end.

(** [EffectOptions] *)
Record effect_options := {
  eo_lowpass : option Q;
  eo_highpass : option Q;
  eo_delay : option Q
}.

(** [x < y] on rationals. *)
Definition Qlt_bool (x y : Q) : bool := negb (Qle_bool y x).

(** A number option that is truthy in JS (present and non-zero). *)
Definition truthy (o : option Q) : option Q :=
  match o with Some v => if Qeq_bool v 0 then None else Some v | None => None end.

Definition effect_chain (effects : effect_options) : list effect_node :=
  (match truthy (eo_lowpass effects) with
   | Some l => if Qlt_bool l 20000 then [Lowpass (Qmax 20 l)] else []
   | None => [] end) ++
  (match truthy (eo_highpass effects) with
   | Some h => if Qlt_bool 20 h then [Highpass (Qmin 20000 h)] else []
   | None => [] end) ++
  (match truthy (eo_delay effects) with
   | Some d => if Qlt_bool 0 d then [DelayMix (Qmin 5 d) (2 # 5) (1 # 2)] else []
   | None => [] end).

(** [playWithEffects(url, effects, playbackOptions)] *)
Definition playWithEffects (now : Q) (ctx : bool) (load : result buf)
  (effects : effect_options) (playbackOptions : playback_options)
  : result source :=
  if negb ctx then Err ErrNoContext else
  match load with
  | Err e => Err e
  | Ok audioBuffer =>
      Ok {| src_buffer := audioBuffer;
            src_rate_writes := pitch_write playbackOptions;
            src_detune := None;
            src_effects := effect_chain effects;
            src_gain := [SetValue (default 1 (po_volume playbackOptions))];
            src_started := true |}
  end.

(* ================================================================= *)
(** ** The buffer cache ([WebAudioProcessor.loadSound])

    [loadSound] is an [async] function; each activation suspends at its
    [await]s. An activation is a pending operation with the [await] it is
    suspended at, and the event loop resumes it with the platform's answer.
    The [cache] is a JS [Map]: an insertion-ordered list of entries. *)

Inductive stage :=
| AwaitInit     (* await this.initContext() *)
| AwaitFetch    (* await fetch(url) *)
| AwaitDecode.  (* await response.arrayBuffer(); await decodeAudioData(...) *)

Record pending := {
  p_id : nat;
  p_url : string;
  p_stage : stage
}.

Inductive fetch_outcome :=
| FetchRejected
| FetchResponse (ok : bool) (status : Z).

Record processor := {
  cache : list (string * buf);
  maxCacheSize : nat;
  context : bool;                     (* this.context is set *)
  fetched : list string;              (* every fetch(url) issued, in order *)
  pending_ops : list pending;
  settled : list (nat * result buf)   (* resolved or rejected activations *)
}.

Inductive event :=
| LoadSound (id : nat) (url : string)
| ResumeInit (id : nat)
| ResumeFetch (id : nat) (r : fetch_outcome)
| ResumeDecode (id : nat) (decoded : option buf).

(** [this.maxCacheSize = 100], empty cache. *)
Definition new_processor (ctx : bool) : processor :=
  {| cache := []; maxCacheSize := 100; context := ctx; fetched := [];
     pending_ops := []; settled := [] |}.

(** [cache.set(k, v)]: an existing key keeps its position. *)
Fixpoint cache_set (c : list (string * buf)) (k : string) (v : buf)
  : list (string * buf) :=
  match c with
  | [] => [(k, v)]
  | (k', v') :: c' =>
      if String.eqb k k' then (k, v) :: c' else (k', v') :: cache_set c' k v
  end.

(** [if (cache.size >= maxCacheSize) cache.delete(cache.keys().next().value)] *)
Definition evict (n : nat) (c : list (string * buf)) : list (string * buf) :=
  if Nat.leb n (List.length c) then tl c else c.

Definition stage_eqb (a b : stage) : bool :=
  match a, b with
  | AwaitInit, AwaitInit | AwaitFetch, AwaitFetch | AwaitDecode, AwaitDecode => true
  | _, _ => false
  end.

(** The activation [id] suspended at stage [s]. *)
Definition find_pending (id : nat) (s : stage) (ops : list pending) : option pending :=
  find (fun o => Nat.eqb (p_id o) id && stage_eqb (p_stage o) s) ops.

Definition remove_pending (id : nat) (ops : list pending) : list pending :=
  filter (fun o => negb (Nat.eqb (p_id o) id)) ops.

Definition with_state (p : processor) (c : list (string * buf)) (f : list string)
  (ops : list pending) (st : list (nat * result buf)) : processor :=
  {| cache := c; maxCacheSize := maxCacheSize p; context := context p;
     fetched := f; pending_ops := ops; settled := st |}.

(** The activation [id] leaves [loadSound] with [r]. *)
Definition finish (p : processor) (id : nat) (c : list (string * buf))
  (r : result buf) : processor :=
  with_state p c (fetched p) (remove_pending id (pending_ops p))
    (settled p ++ [(id, r)]).

Definition advance (p : processor) (o : pending) (s : stage) (f : list string)
  : processor :=
  with_state p (cache p) f
    ({| p_id := p_id o; p_url := p_url o; p_stage := s |}
       :: remove_pending (p_id o) (pending_ops p))
    (settled p).

Definition step (p : processor) (ev : event) : processor :=
  match ev with
  | LoadSound id url =>
      match assoc url (cache p) with
      | Some b =>                                 (* cache hit *)
          with_state p (cache p) (fetched p) (pending_ops p) (settled p ++ [(id, Ok b)])
      | None =>
          with_state p (cache p) (fetched p)
            ({| p_id := id; p_url := url; p_stage := AwaitInit |} :: pending_ops p)
            (settled p)
      end
  | ResumeInit id =>
      match find_pending id AwaitInit (pending_ops p) with
      | None => p
      | Some o =>
          if context p then advance p o AwaitFetch (fetched p ++ [p_url o])
          else finish p id (cache p) (Err ErrNoContext)
      end
  | ResumeFetch id r =>
      match find_pending id AwaitFetch (pending_ops p) with
      | None => p
      | Some o =>
          match r with
          | FetchRejected => finish p id (cache p) (Err ErrFetch)
          | FetchResponse false status => finish p id (cache p) (Err (ErrHttp status))
          | FetchResponse true _ => advance p o AwaitDecode (fetched p)
          end
      end
  | ResumeDecode id d =>
      match find_pending id AwaitDecode (pending_ops p) with
      | None => p
      | Some o =>
          match d with
          | None => finish p id (cache p) (Err ErrDecode)
          | Some audioBuffer =>
              finish p id
                (cache_set (evict (maxCacheSize p) (cache p)) (p_url o) audioBuffer)
                (Ok audioBuffer)
          end
      end
  end.

Definition run (p : processor) (evs : list event) : processor := fold_left step evs p.

(** One [loadSound(url)] run to success with no other activity. *)
Definition load_ok_events (id : nat) (url : string) (b : buf) : list event :=
  [LoadSound id url; ResumeInit id; ResumeFetch id (FetchResponse true 200);
   ResumeDecode id (Some b)].

(** Sequential successful loads of [urls], activation ids and buffers
    numbered from [k]. *)
Fixpoint load_all_events (k : nat) (urls : list string) : list event :=
  match urls with
  | [] => []
  | u :: us => load_ok_events k u k ++ load_all_events (S k) us
  end.

(* ================================================================= *)
(** ** The sound pack of [src/SoundPack.ts] (unnamed part_007) *)

Module PackSrc.

(** [getBestFormat] *)
Definition default_preferred := [Mp3; Ogg; Wav].

Definition preferred_of (m : manifest) : list audio_format :=
  match m_formats m with Some f => preferred f | None => default_preferred end.

Definition getBestFormat (m : manifest) (support : format_support)
  (baseFileName : string) : string :=
  let cleanName := strip_ext baseFileName in
  let pref := preferred_of m in
  match first_supported support pref with
  | Some f => cleanName ++ "." ++ format_ext f
  | None =>
      (* [`${cleanName}.${preferred[0]}`]; an empty list reads [undefined] *)
      cleanName ++ "." ++
        match pref with f :: _ => format_ext f | [] => "undefined" end
  end.


(** [this.manifest.formats?.fallback || 'silence'] *)
Definition fallback_of (m : manifest) : fallback_strategy :=
  match m_formats m with Some f => fallback f | None => FSilence end.

(** What [play] resolves to: the started source, or the dummy [{}]
    returned by the [silence] / [synth] fallback. *)
Inductive play_value :=
| Started (s : source)
| Dummy.

(** Whether the resolved value is a started, sounding source. *)
Definition audible (v : play_value) : bool :=
  match v with Started s => src_started s | Dummy => false end.

(** The [try] block of [play(path, options)]; [load url] is the outcome of
    the [loadSound(url)] awaited inside [playWithPitch]. *)
Definition play_body (m : manifest) (basePath : string)
  (support : format_support) (now : Q) (ctx : bool)
  (load : string -> result buf) (path : string) (options : playback_options)
  : result source :=
  match resolveSound m path with
  | Err e => Err e
  | Ok (file, defaultOptions) =>
      let fileName := getBestFormat m support file in
      let url := basePath ++ "/" ++ m_name m ++ "/" ++ fileName in
      playWithPitch now ctx (load url) (merge_options defaultOptions options)
  end.

(** [play(path, options)] with its [catch] block. *)
Definition play (m : manifest) (basePath : string)
  (support : format_support) (now : Q) (ctx : bool)
  (load : string -> result buf) (path : string) (options : playback_options)
  : result play_value :=
  match play_body m basePath support now ctx load path options with
  | Ok s => Ok (Started s)
  | Err error =>
      match fallback_of m with
      | FError => Err error
      | _ => Ok Dummy
      end
  end.

(** A callable [() => this.play(soundPath, options)]. *)
Record callable := {
  c_path : string;
  c_options : playback_options
}.

Definition with_pitch (p : Q) : playback_options :=
  {| po_pitch := Some p; po_volume := None; po_detune := None;
     po_playbackRate := None |}.

Definition with_volume (v : Q) : playback_options :=
  {| po_pitch := None; po_volume := Some v; po_detune := None;
     po_playbackRate := None |}.

Inductive gradient_type := GPitch | GFilter | GVolume.

Record gradient_options := {
  go_range : option Q;
  go_type : option gradient_type
}.

Definition nat_Q (n : nat) : Q := inject_Z (Z.of_nat n).

(** [createGradient(soundPath, steps, options)] *)
Definition createGradient (soundPath : string) (steps : nat)
  (options : gradient_options) : list callable :=
  let type := default GPitch (go_type options) in
  let range := default 8 (truthy (go_range options)) in
  match type with
  | GPitch =>
      map (fun i =>
             let position := nat_Q i / (nat_Q steps - 1) in
             let pitch := (position - (1 # 2)) * range in
             {| c_path := soundPath; c_options := with_pitch pitch |})
          (seq 0 steps)
  | GVolume =>
      map (fun i =>
             let volume := (3 # 10) + (7 # 10) * (nat_Q i / (nat_Q steps - 1)) in
             {| c_path := soundPath; c_options := with_volume volume |})
          (seq 0 steps)
  | GFilter =>
      map (fun _ => {| c_path := soundPath; c_options := no_options |}) (seq 0 steps)
  end.

Inductive musical_scale := Major | Minor | Pentatonic | Chromatic.

Definition scales (s : musical_scale) : list Z :=
  match s with
  | Major => [0; 2; 4; 5; 7; 9; 11; 12]
  | Minor => [0; 2; 3; 5; 7; 8; 10; 12]
  | Pentatonic => [0; 2; 4; 7; 9; 12]
  | Chromatic => [0; 1; 2; 3; 4; 5; 6; 7; 8; 9; 10; 11; 12]
  end%Z.

(** [createHarmonicSet(soundPath, count, scale)] *)
Definition createHarmonicSet (soundPath : string) (count : nat)
  (scale : musical_scale) : list callable :=
  let intervals := scales scale in
  map (fun i =>
         let noteIndex := Nat.modulo i (List.length intervals) in
         let octave := Nat.div i (List.length intervals) in
         let pitch := (nth noteIndex intervals 0 + Z.of_nat octave * 12)%Z in
         {| c_path := soundPath; c_options := with_pitch (inject_Z pitch) |})
      (seq 0 count).

End PackSrc.
(** [getBestFormat] of the bundled build (unnamed part_003). *)
Module PackBundle.

Definition default_preferred := [Ogg; Mp3; Wav].

Definition preferred_of (m : manifest) : list audio_format :=
  match m_formats m with Some f => preferred f | None => default_preferred end.

Definition getBestFormat (m : manifest) (support : format_support)
  (baseFileName : string) : string :=
  let cleanName := strip_ext baseFileName in
  match first_supported support (preferred_of m) with
  | Some f => cleanName ++ "." ++ format_ext f
  | None => cleanName ++ ".ogg"
  end.



(** The lazy-loading state of a bundled [SoundPack]; a load promise is
    named by the id of the [loadSound] activation it chains on. *)
Record pack := {
  pk_proc : processor;
  lazyLoad : bool;
  loadedSounds : list string;
  loadingPromises : list (string * nat);
  next_id : nat
}.

(** Where the [play] activation suspends first. *)
Inductive play_wait :=
| WaitFail (e : err)               (* resolveSound threw: on to [catch] *)
| WaitLoad (id : nat) (url : string) (* await this.loadingPromises.get(url) *)
| NoWait (url : string).           (* straight to playWithPitch(url, ...) *)

(** The synchronous prefix of [play(path, options)], up to its first
    [await]. *)
Definition play_start (m : manifest) (basePath : string)
  (support : format_support) (pk : pack) (path : string) : pack * play_wait :=
  match resolveSound m path with
  | Err e => (pk, WaitFail e)
  | Ok (file, _) =>
      let fileName := getBestFormat m support file in
      let url := basePath ++ "/" ++ m_name m ++ "/" ++ fileName in
      if lazyLoad pk && negb (existsb (String.eqb url) (loadedSounds pk)) then
        match assoc url (loadingPromises pk) with
        | Some id => (pk, WaitLoad id url)
        | None =>
            let id := next_id pk in
            ({| pk_proc := step (pk_proc pk) (LoadSound id url);
                lazyLoad := lazyLoad pk;
                loadedSounds := loadedSounds pk;
                loadingPromises := loadingPromises pk ++ [(url, id)];
                next_id := S id |},
             WaitLoad id url)
        end
      else (pk, NoWait url)
  end.

(** The [.then] / [.catch] handlers of the load promise for [url]. *)
Definition on_settled (pk : pack) (url : string) (r : result buf) : pack :=
  {| pk_proc := pk_proc pk;
     lazyLoad := lazyLoad pk;
     loadedSounds :=
       match r with Ok _ => loadedSounds pk ++ [url] | Err _ => loadedSounds pk end;
     loadingPromises :=
       filter (fun e => negb (String.eqb (fst e) url)) (loadingPromises pk);
     next_id := next_id pk |}.


(** What can happen to a pack between two [play] calls: the processor
    steps one of its [loadSound] activations, another [play] runs its
    synchronous prefix, or the load promise of a URL settles. *)
Inductive pack_event :=
| PkStep (ev : event)
| PkPlay (path : string)
| PkSettle (url : string) (r : result buf).

Definition pack_apply (m : manifest) (basePath : string) (support : format_support)
  (pk : pack) (e : pack_event) : pack :=
  match e with
  | PkStep ev =>
      {| pk_proc := step (pk_proc pk) ev; lazyLoad := lazyLoad pk;
         loadedSounds := loadedSounds pk; loadingPromises := loadingPromises pk;
         next_id := next_id pk |}
  | PkPlay path => fst (play_start m basePath support pk path)
  | PkSettle url r => on_settled pk url r
  end.

Definition pack_run (m : manifest) (basePath : string) (support : format_support)
  (pk : pack) (es : list pack_event) : pack :=
  fold_left (pack_apply m basePath support) es pk.

End PackBundle.

(* ================================================================= *)
(** ** The synthesizer ([SynthEngine.playSound], [src/throttledSound.ts]) *)

Module Synth.

Record envelope := {
  attack : Q;
  decay : Q;
  sustain : Q;
  release : Q
}.

Inductive mod_type := Vibrato | Tremolo | ModNone.

Record modulation_cfg := {
  mod_kind : mod_type;
  mod_rate : Q;
  mod_depth : Q
}.

Inductive filter_type := FLowpass | FHighpass | FBandpass.

Record filter_cfg := {
  f_type : filter_type;
  f_frequency : Q;
  f_resonance : Q
}.

(** [SynthConfig]; its [type] name is not read by [playSound]. *)
Record synth_config := {
  frequency : Q;
  envelope_of : envelope;
  modulation : option modulation_cfg;
  harmonics : option (list Q);
  filter : option filter_cfg
}.

Record oscillator := {
  osc_frequency : Q;
  osc_detune : Q;
  osc_gain : Q;              (* gain of its own GainNode *)
  osc_start : option Q;
  osc_stop : option Q
}.

Inductive lfo_target := LfoFrequency | LfoGain | LfoUnrouted.

Record lfo := {
  lfo_frequency : Q;
  lfo_depth : Q;
  lfo_route : lfo_target;
  lfo_start : Q;
  lfo_stop : Q
}.

(** The graph [playSound] builds, with its scheduled times. *)
Record schedule := {
  oscillators : list oscillator;
  lfo_of : option lfo;
  filter_node : option filter_cfg;
  master_gain : list param_event
}.

(** [createOscillator]; [rnd] is the value of [Math.random()] drawn for it. *)
Definition createOscillator (frequency volume rnd : Q) : oscillator :=
  {| osc_frequency := frequency;
     osc_detune := (rnd - (1 # 2)) * 3;
     osc_gain := volume * (15 # 100);
     osc_start := None;
     osc_stop := None |}.

(** [applyModulation] *)
Definition applyModulation (md : modulation_cfg) (startTime : Q) : lfo :=
  {| lfo_frequency := mod_rate md;
     lfo_depth := mod_depth md;
     lfo_route :=
       match mod_kind md with
       | Vibrato => LfoFrequency
       | Tremolo => LfoGain
       | ModNone => LfoUnrouted
       end;
     lfo_start := startTime;
     lfo_stop := startTime + 2 |}.

(** [applyEnvelope] *)
Definition applyEnvelope (env : envelope) (startTime : Q) : list param_event :=
  [SetValueAtTime 0 startTime;
   LinearRampTo 1 (startTime + attack env);
   LinearRampTo (sustain env) (startTime + attack env + decay env);
   LinearRampTo 0 (startTime + attack env + decay env + release env)].

Definition start_at (t : Q) (o : oscillator) : oscillator :=
  {| osc_frequency := osc_frequency o; osc_detune := osc_detune o;
     osc_gain := osc_gain o; osc_start := Some t; osc_stop := osc_stop o |}.

Definition stop_at (t : Q) (o : oscillator) : oscillator :=
  {| osc_frequency := osc_frequency o; osc_detune := osc_detune o;
     osc_gain := osc_gain o; osc_start := osc_start o; osc_stop := Some t |}.

(** [playSound(config)]: [now] is [context.currentTime], [rnd k] the
    [k]-th [Math.random()] of the call. *)
Definition playSound (now : Q) (rnd : nat -> Q) (config : synth_config) : schedule :=
  let base := createOscillator (frequency config) (7 # 10) (rnd O) in
  let harm :=
    match harmonics config with
    | Some hs =>
        map (fun '(index, harmonic) =>
               createOscillator (frequency config * harmonic)
                 ((3 # 10) / PackSrc.nat_Q (S index)) (rnd (S index)))
            (combine (seq 0 (List.length hs)) hs)
    | None => []
    end in
  let lfo :=
    match modulation config with
    | Some md =>
        match mod_kind md with
        | ModNone => None
        | _ => Some (applyModulation md now)
        end
    | None => None
    end in
  let env := envelope_of config in
  let started := map (start_at now) (base :: harm) in
  let totalDuration := attack env + decay env + release env in
  {| oscillators := map (stop_at (now + totalDuration)) started;
     lfo_of := lfo;
     filter_node := filter config;
     master_gain := applyEnvelope env now |}.

End Synth.

(* ================================================================= *)
(** ** Cache maintenance ([WebAudioProcessor.clearCache],
    [WebAudioProcessor.getCacheStats]) *)

(** [this.cache.clear()]: pending [loadSound] activations are untouched. *)
Definition clearCache (p : processor) : processor :=
  with_state p [] (fetched p) (pending_ops p) (settled p).

(** [{ size: this.cache.size, urls: Array.from(this.cache.keys()) }] *)
Definition getCacheStats (p : processor) : nat * list string :=
  (List.length (cache p), map fst (cache p)).

(** The number [source.playbackRate.value] holds once [playWithPitch] or
    [playWithEffects] has returned: the last write, or the node's default
    rate 1. *)
Definition playbackRate_value (s : source) : R :=
  fold_left (fun _ w => rate_value w) (src_rate_writes s) 1%R.

(* ================================================================= *)
(** ** Throttling ([throttleSound], [src/throttledSound.ts]) *)

Module Throttle.

(** The module-level [lastPlayTimes] map, shared by every wrapper. *)
Definition times := list (string * Z).

(** [Map.prototype.set]: an existing key keeps its position. *)
Fixpoint map_set (m : times) (k : string) (v : Z) : times :=
  match m with
  | [] => [(k, v)]
  | (k', v') :: m' => if String.eqb k k' then (k, v) :: m' else (k', v') :: map_set m' k v
  end.

(** [lastPlayTimes.get(soundKey) || 0]; a stored 0 reads as 0 either way. *)
Definition lastPlay (m : times) (soundKey : string) : Z :=
  default 0%Z (assoc soundKey m).

(** One invocation of the wrapper [throttleSound(soundFn, minDelay,
    soundKey)] at [Date.now() = now]: whether [soundFn] runs, and the map
    after the call. *)
Definition throttle_call (minDelay : Z) (soundKey : string) (now : Z) (m : times)
  : bool * times :=
  if Z.leb minDelay (now - lastPlay m soundKey)
  then (true, map_set m soundKey now)
  else (false, m).

(** A call of some wrapper: its [minDelay], its [soundKey], which
    [soundFn] it wraps, and the clock. *)
Record call := {
  c_delay : Z;
  c_key : string;
  c_fn : nat;
  c_now : Z
}.

(** Calls made one after another: the calls whose [soundFn] ran, in order,
    and the final map. *)
Fixpoint run_calls (m : times) (cs : list call) : list call * times :=
  match cs with
  | [] => ([], m)
  | c :: cs' =>
      let '(fired, m1) := throttle_call (c_delay c) (c_key c) (c_now c) m in
      let '(log, m2) := run_calls m1 cs' in
      (((if fired then [c] else []) ++ log)%list, m2)
  end.

(** The time recorded for [k] after the calls [fired] ran from [m]. *)
Definition last_fire (m : times) (fired : list call) (k : string) : Z :=
  fold_left (fun t c => if String.eqb (c_key c) k then c_now c else t) fired
    (lastPlay m k).

(** Successive runs of one key are at least the later call's [minDelay]
    apart; [t] is the time recorded before the first. *)
Fixpoint spaced (t : Z) (l : list call) : bool :=
  match l with
  | [] => true
  | c :: l' => Z.leb (c_delay c) (c_now c - t) && spaced (c_now c) l'
  end.

(** [throttledSounds.sliderStep], [.hover], [.gradientPanel]: the
    wrapped call they make. *)
Definition sliderStep (fn : nat) (now : Z) : call :=
  {| c_delay := 150; c_key := "slider-step"; c_fn := fn; c_now := now |}.
Definition hover (fn : nat) (now : Z) : call :=
  {| c_delay := 200; c_key := "hover"; c_fn := fn; c_now := now |}.
Definition gradientPanel (fn : nat) (now : Z) : call :=
  {| c_delay := 300; c_key := "gradient-panel"; c_fn := fn; c_now := now |}.

End Throttle.

(* ================================================================= *)
(** ** Pack routing ([SoundPackManager], [src/SoundPack.ts]) *)

Module Manager.

(** [Map.prototype.set] on a map keyed by strings. *)
Fixpoint mset {A} (m : list (string * A)) (k : string) (v : A) : list (string * A) :=
  match m with
  | [] => [(k, v)]
  | (k', v') :: m' => if String.eqb k k' then (k, v) :: m' else (k', v') :: mset m' k v
  end.

(** [this.packs.has(name)] *)
Definition has {A} (m : list (string * A)) (k : string) : bool :=
  match assoc k m with Some _ => true | None => false end.

(** A pack name read as a JS condition: [null] and [''] are falsy. *)
Definition name_truthy (o : option string) : option string :=
  match o with Some EmptyString => None | _ => o end.

(** The manager's fields; [P] is the type of the packs it holds. *)
Record manager (P : Type) := {
  packs : list (string * P);
  activePack : option string;
  categoryOverrides : list (string * string)
}.
Arguments packs {P} _.
Arguments activePack {P} _.
Arguments categoryOverrides {P} _.

Section Ops.
Context {P : Type}.

Definition empty : manager P :=
  {| packs := []; activePack := None; categoryOverrides := [] |}.

(** [loadPack(name, manifest, options)] once the pack is built. *)
Definition loadPack (name : string) (pack : P) (mg : manager P) : manager P :=
  {| packs := mset (packs mg) name pack;
     activePack :=
       match name_truthy (activePack mg) with
       | Some _ => activePack mg
       | None => Some name
       end;
     categoryOverrides := categoryOverrides mg |}.

(** [switchPack(name)]; [None] is the [throw] for a pack not loaded. *)
Definition switchPack (name : string) (mg : manager P) : option (manager P) :=
  if has (packs mg) name
  then Some {| packs := packs mg; activePack := Some name; categoryOverrides := [] |}
  else None.

(** [useMixed(overrides)], the entries of [overrides] in order. *)
Definition useMixed (overrides : list (string * string)) (mg : manager P) : manager P :=
  {| packs := packs mg;
     activePack := activePack mg;
     categoryOverrides :=
       fold_left (fun acc '(category, packName) =>
                    if has (packs mg) packName then mset acc category packName else acc)
         overrides [] |}.

(** [dispose()] *)
Definition dispose (mg : manager P) : manager P := empty.

(** [const [category] = path.split('.')] *)
Definition category_of (path : string) : string :=
  match split_dot path with c :: _ => c | [] => EmptyString end.

(** Where [play(path)] and [createGradient(path, ...)] go. *)
Inductive route :=
| NoPack                        (* "No pack available": returns undefined / [] *)
| PackMissing (name : string)   (* "Pack ... not found": returns undefined *)
| Routed (name : string) (pack : P).

Definition route_of (mg : manager P) (path : string) : route :=
  let category := category_of path in
  let packName :=
    match name_truthy (assoc category (categoryOverrides mg)) with
    | Some n => Some n
    | None => activePack mg
    end in
  match name_truthy packName with
  | None => NoPack
  | Some n =>
      match assoc n (packs mg) with
      | None => PackMissing n
      | Some pack => Routed n pack
      end
  end.

(** Calls on the manager; a [switchPack] that throws changes nothing. *)
Inductive op :=
| OpLoadPack (name : string) (pack : P)
| OpSwitchPack (name : string)
| OpUseMixed (overrides : list (string * string))
| OpDispose.

Definition apply_op (mg : manager P) (o : op) : manager P :=
  match o with
  | OpLoadPack n pk => loadPack n pk mg
  | OpSwitchPack n => match switchPack n mg with Some mg' => mg' | None => mg end
  | OpUseMixed ov => useMixed ov mg
  | OpDispose => dispose mg
  end.

Definition run_ops (mg : manager P) (os : list op) : manager P := fold_left apply_op os mg.

End Ops.

Arguments route : clear implicits.

End Manager.

(* ================================================================= *)
(** ** Variants, preloading and pack information ([SoundPack.playVariant],
    [SoundPack.preload], [SoundPack.getInfo], [src/SoundPack.ts]) *)

Module PackSrcOps.

(** [`${this.basePath}/${this.manifest.name}/${this.getBestFormat(file)}`] *)
Definition url_of (m : manifest) (basePath : string) (support : format_support)
  (file : string) : string :=
  basePath ++ "/" ++ m_name m ++ "/" ++ PackSrc.getBestFormat m support file.

(** How [playVariant] settles: [getBestFormat(undefined)] throws a
    [TypeError] (an index past the variant list reads [undefined]);
    otherwise the outcome of the play it performs. *)
Inductive variant_outcome :=
| VariantTypeError
| VariantPlayed (r : result PackSrc.play_value).

(** [Math.floor(Math.random() * variants.length)], [rnd] the random
    number. *)
Definition pick_index (rnd : Q) (len : nat) : Z := Qfloor (rnd * PackSrc.nat_Q len).

(** [playVariant(path, options)]. *)
Definition playVariant (m : manifest) (basePath : string) (support : format_support)
  (now : Q) (ctx : bool) (load : string -> result buf) (rnd : Q)
  (path : string) (options : playback_options) : variant_outcome :=
  match lookup_sound m path with
  | None | Some (SEFile _) =>
      VariantPlayed (PackSrc.play m basePath support now ctx load path options)
  | Some (SEVariant v) =>
      let variants := default [sv_default v] (sv_variants v) in
      let i := pick_index rnd (List.length variants) in
      match (if Z.ltb i 0 then None else nth_error variants (Z.to_nat i)) with
      | None => VariantTypeError
      | Some randomFile =>
          let url := url_of m basePath support randomFile in
          let finalOptions :=
            merge_options {| po_pitch := sv_pitch v; po_volume := sv_volume v;
                             po_detune := None; po_playbackRate := None |} options in
          VariantPlayed
            match playWithPitch now ctx (load url) finalOptions with
            | Ok s => Ok (PackSrc.Started s)
            | Err e => Err e
            end
      end
  end.

(** [typeof config === 'string' ? config : config.default] *)
Definition entry_file (e : sound_entry) : string :=
  match e with SEFile f => f | SEVariant v => sv_default v end.

(** The URLs [preload(categories)] passes to [loadSound], in order;
    [None] is [categories] left out ([Object.keys(this.manifest.sounds)]). *)
Definition preload_urls (m : manifest) (basePath : string) (support : format_support)
  (categories : option (list string)) : list string :=
  let toLoad := default (map fst (m_sounds m)) categories in
  flat_map (fun category =>
              match assoc category (m_sounds m) with
              | None => []
              | Some actions =>
                  map (fun ac => url_of m basePath support (entry_file (snd ac))) actions
              end) toLoad.

(** [getInfo().soundCount] *)
Definition soundCount (m : manifest) : nat :=
  fold_left (fun acc cat => (acc + List.length (snd cat))%nat) (m_sounds m) O.

(** [getInfo().categories] *)
Definition categories (m : manifest) : list string := map fst (m_sounds m).

End PackSrcOps.

(* ================================================================= *)
(** ** The [JuicySounds] front end (bundled build, unnamed part_003)

    Numbers are read as exact rationals. *)

Module Juicy.

(** The fields of a [JuicySounds] instance that its methods read. *)
Record state := {
  globalVolume : Q;
  isMuted : bool;
  synthetic_enabled : bool;       (* this.config.synthetic?.enabled *)
  gradientFrequencies : list Q
}.

(** The constructor, from the [volume], [muted] and [synthetic] fields of
    [config] ([None]: left out; [Some None]: a [synthetic] object without
    [enabled]). [{ ...defaults, ...config }] then
    [this.config.volume || 1] and [this.config.muted || false]. Volumes
    are rationals here: a [NaN] volume, which [||] also turns into 1, is
    outside the model. *)
Definition init (volume : option Q) (muted : option bool)
  (synthetic : option (option bool)) : state :=
  {| globalVolume := match volume with Some v => if Qeq_bool v 0 then 1 else v | None => 1 end;
     isMuted := default false muted;
     synthetic_enabled := match synthetic with None => true | Some e => default false e end;
     gradientFrequencies := [26163 # 100; 29366 # 100; 32963 # 100; 392; 440; 49388 # 100] |}.

(** [mute()], [unmute()], [toggle()] *)
Definition set_muted (st : state) (b : bool) : state :=
  {| globalVolume := globalVolume st; isMuted := b;
     synthetic_enabled := synthetic_enabled st;
     gradientFrequencies := gradientFrequencies st |}.
Definition mute (st : state) : state := set_muted st true.
Definition unmute (st : state) : state := set_muted st false.
Definition toggle (st : state) : state := set_muted st (negb (isMuted st)).

(** [play(sound, options)] up to its call of [this.manager.play]: the
    options it passes, or [None] when muted (it returns at once). [rnd] is
    the [Math.random()] read when [randomPitch] applies. *)
Definition play_options (st : state) (rnd : Q) (options : playback_options)
  (randomPitch : bool) : option playback_options :=
  if isMuted st then None else
  let pitch :=
    if randomPitch && match truthy (po_pitch options) with None => true | Some _ => false end
    then let variation := 5 # 100 in
         let randomFactor := 1 + (rnd * 2 - 1) * variation in
         Some randomFactor
    else po_pitch options in
  Some {| po_pitch := pitch;
          po_volume := Some (default 1 (po_volume options) * globalVolume st);
          po_detune := po_detune options;
          po_playbackRate := po_playbackRate options |}.

(** [Math.min(Math.floor(index / total * len), len - 1)] used as an array
    index; [None] when the element read is [undefined]. A zero [total]
    gives [Infinity], [NaN] or [-Infinity]. *)
Definition freq_index (index total : Q) (len : nat) : option nat :=
  if Qeq_bool total 0 then
    if Qlt_bool 0 index && Nat.ltb 0 len then Some (len - 1)%nat else None
  else
    let freqIndex := Qfloor (index / total * PackSrc.nat_Q len) in
    let i := Z.min freqIndex (Z.of_nat len - 1) in
    if Z.ltb i 0 then None else Some (Z.to_nat i).

(** What [playGradientSound(index, total)] does. *)
Inductive gradient_tone :=
| GradientSilent      (* muted or synthesis disabled: returns at once *)
| GradientBadIndex    (* frequency.setValueAtTime(undefined, ...) throws *)
| GradientTone (frequency : Q) (gain : list param_event) (start stop : Q).

(** [now] is [this.synthContext.currentTime]. *)
Definition playGradientSound (st : state) (now index total : Q) : gradient_tone :=
  if isMuted st || negb (synthetic_enabled st) then GradientSilent else
  let freqs := gradientFrequencies st in
  match match freq_index index total (List.length freqs) with
        | Some i => nth_error freqs i
        | None => None
        end with
  | None => GradientBadIndex
  | Some frequency =>
      let gv := globalVolume st in
      GradientTone frequency
        [SetValueAtTime 0 now;
         LinearRampTo ((2 # 10) * gv) (now + (1 # 100));
         LinearRampTo ((15 # 100) * gv) (now + (5 # 100));
         LinearRampTo ((15 # 100) * gv) (now + (1 # 10));
         LinearRampTo 0 (now + (15 # 100))]
        now (now + (15 # 100))
  end.

End Juicy.

(* ================================================================= *)
(** ** [SOUND_PRESETS] and [buttonSounds] ([throttledSound.ts]) *)

Module Presets.
Import Synth.

Definition env (a d s r : Q) : envelope :=
  {| attack := a; decay := d; sustain := s; release := r |}.

Definition no_modulation : modulation_cfg :=
  {| mod_kind := ModNone; mod_rate := 0; mod_depth := 0 |}.

Definition lowpass (f res : Q) : filter_cfg :=
  {| f_type := FLowpass; f_frequency := f; f_resonance := res |}.

Definition slate : synth_config :=
  {| frequency := 200; envelope_of := env (2 # 100) (8 # 100) 0 (12 # 100);
     modulation := Some no_modulation; harmonics := None;
     filter := Some (lowpass 600 (5 # 10)) |}.

Definition amber : synth_config :=
  {| frequency := 280; envelope_of := env (1 # 100) (12 # 100) 0 (15 # 100);
     modulation := None; harmonics := Some [1; 12 # 10];
     filter := Some (lowpass 800 (3 # 10)) |}.

Definition coral : synth_config :=
  {| frequency := 350; envelope_of := env (5 # 1000) (5 # 100) 0 (8 # 100);
     modulation := Some no_modulation; harmonics := None;
     filter := Some (lowpass 900 (4 # 10)) |}.

Definition sage : synth_config :=
  {| frequency := 320; envelope_of := env (1 # 100) (1 # 10) 0 (12 # 100);
     modulation := None; harmonics := Some [1; 11 # 10];
     filter := Some (lowpass 1000 (4 # 10)) |}.

Definition pearl : synth_config :=
  {| frequency := 400; envelope_of := env (2 # 100) (1 # 10) 0 (15 # 100);
     modulation := Some no_modulation; harmonics := None;
     filter := Some (lowpass 1100 (5 # 10)) |}.

Definition SOUND_PRESETS : list (string * synth_config) :=
  [("slate", slate); ("amber", amber); ("coral", coral); ("sage", sage); ("pearl", pearl)].

(** [buttonSounds.playSlate()] ... [playPearl()] *)
Definition buttonSounds (now : Q) (rnd : nat -> Q) : list (string * schedule) :=
  map (fun '(name, cfg) => (name, playSound now rnd cfg)) SOUND_PRESETS.

End Presets.

(** A manifest with one variant entry, used by the examples below. *)
Definition variant_manifest : manifest :=
  {| m_name := "pack";
     m_sounds := [("ui", [("click", SEVariant {| sv_default := "c1.mp3";
                                                 sv_variants := Some ["c1.mp3"; "c2.mp3"];
                                                 sv_pitch := Some 1; sv_volume := None |})])];
     m_formats := None |}.

(* ================================================================= *)
(** * Properties *)

(** ** Format choice *)

Lemma strip_ext_no_dot (s : string) : has_dot s = false -> strip_ext s = s.
Proof.
  induction s as [|c s IH]; simpl; [reflexivity|].
  intros H. apply orb_false_iff in H as [Hc Hs].
  rewrite Hc. cbn [andb]. rewrite IH by exact Hs. reflexivity.
Qed.

Lemma strip_ext_ext (name ext : string) :
  has_dot name = false -> nonempty ext = true -> has_dot ext = false ->
  strip_ext (name ++ "." ++ ext) = name.
Proof.
  intros Hn Hne Hd. induction name as [|c name IH].
  - simpl. rewrite Hne, Hd. reflexivity.
  - simpl in Hn. apply orb_false_iff in Hn as [Hc Hn].
    change (String c name ++ "." ++ ext) with (String c (name ++ "." ++ ext)).
    cbn [strip_ext]. rewrite Hc. cbn [andb]. rewrite (IH Hn). reflexivity.
Qed.

Lemma first_supported_first (support : format_support) l1 f l2 :
  Forall (fun g => support g = false) l1 -> support f = true ->
  first_supported support (l1 ++ f :: l2)%list = Some f.
Proof.
  induction 1 as [|g l1 Hg _ IH]; intros Hf; simpl.
  - rewrite Hf. reflexivity.
  - rewrite Hg. apply IH, Hf.
Qed.

Lemma first_supported_none (support : format_support) l :
  Forall (fun g => support g = false) l -> first_supported support l = None.
Proof.
  induction 1 as [|g l Hg _ IH]; simpl; [reflexivity|]. rewrite Hg. exact IH.
Qed.

(** C4 (amended): [getBestFormat] drops the last extension of the base name
    and appends the first preferred extension that is supported. When none
    is supported the source version appends the first preferred entry and
    the bundled build appends ["ogg"]; the two agree on the worked example
    (supported {ogg, wav}, order [mp3, ogg, wav], "click" gives "click.ogg"). *)
Theorem getBestFormat_choice (m : manifest) (fc : formats_cfg)
  (support : format_support) (base : string)
  (Hf : m_formats m = Some fc) :
  (forall l1 f l2,
     preferred fc = (l1 ++ f :: l2)%list ->
     Forall (fun g => support g = false) l1 -> support f = true ->
     PackSrc.getBestFormat m support base = strip_ext base ++ "." ++ format_ext f /\
     PackBundle.getBestFormat m support base = strip_ext base ++ "." ++ format_ext f) /\
  (forall f l,
     preferred fc = f :: l ->
     Forall (fun g => support g = false) (f :: l) ->
     PackSrc.getBestFormat m support base = strip_ext base ++ "." ++ format_ext f /\
     PackBundle.getBestFormat m support base = strip_ext base ++ ".ogg") /\
  (forall name ext,
     has_dot name = false -> nonempty ext = true -> has_dot ext = false ->
     strip_ext (name ++ "." ++ ext) = name) /\
  (has_dot base = false -> strip_ext base = base) /\
  (let m0 := {| m_name := "pack"; m_sounds := [];
                m_formats := Some {| preferred := [Mp3; Ogg; Wav]; fallback := FSilence |} |} in
   let s0 := fun f => match f with Ogg | Wav => true | _ => false end in
   PackSrc.getBestFormat m0 s0 "click" = "click.ogg" /\
   PackBundle.getBestFormat m0 s0 "click" = "click.ogg").
Proof.
  unfold PackSrc.getBestFormat, PackBundle.getBestFormat,
    PackSrc.preferred_of, PackBundle.preferred_of.
  rewrite Hf. split; [|split; [|split; [|split]]].
  - intros l1 f l2 Hp H1 Hs. rewrite Hp, first_supported_first by assumption.
    split; reflexivity.
  - intros f l Hp Hn. rewrite Hp, (first_supported_none _ _ Hn).
    split; reflexivity.
  - apply strip_ext_ext.
  - apply strip_ext_no_dot.
  - split; reflexivity.
Qed.

Lemma getBestFormat_choice_witness :
  let m := {| m_name := "pack"; m_sounds := [];
              m_formats := Some {| preferred := [Mp3; Ogg; Wav]; fallback := FSilence |} |} in
  m_formats m = Some {| preferred := [Mp3; Ogg; Wav]; fallback := FSilence |} /\
  PackSrc.getBestFormat m (fun f => match f with Ogg | Wav => true | _ => false end)
    "click.wav" = "click.ogg".
Proof.
  intros m. split; [reflexivity|].
  destruct (getBestFormat_choice m {| preferred := [Mp3; Ogg; Wav]; fallback := FSilence |}
              (fun f => match f with Ogg | Wav => true | _ => false end) "click.wav"
              eq_refl) as [Hfirst _].
  destruct (Hfirst [Mp3] Ogg [Wav] eq_refl) as [Hsrc _].
  - constructor; [reflexivity | constructor].
  - reflexivity.
  - rewrite Hsrc. reflexivity.
Defined.

(** C4 refuted as stated: with nothing supported and the preferred list
    [mp3, wav], the bundled build returns "click.ogg", not "click.mp3". *)
Lemma getBestFormat_bundle_ogg_fallback :
  let m := {| m_name := "pack"; m_sounds := [];
              m_formats := Some {| preferred := [Mp3; Wav]; fallback := FSilence |} |} in
  PackBundle.getBestFormat m (fun _ => false) "click" = "click.ogg" /\
  PackBundle.getBestFormat m (fun _ => false) "click" <> "click.mp3".
Proof. split; [reflexivity | discriminate]. Qed.

(** ** Load deduplication *)

(** C1 refuted as stated: two overlapping [loadSound("u")] calls both pass
    the cache check, so each issues its own [fetch] and decode, and they
    resolve to two different buffers. *)
Lemma loadSound_overlapping_fetch_twice :
  let p := run (new_processor true)
             [LoadSound 1 "u"; LoadSound 2 "u"; ResumeInit 1; ResumeInit 2;
              ResumeFetch 1 (FetchResponse true 200);
              ResumeFetch 2 (FetchResponse true 200);
              ResumeDecode 1 (Some 7%nat); ResumeDecode 2 (Some 8%nat)] in
  fetched p = ["u"; "u"] /\ settled p = [(1%nat, Ok 7%nat); (2%nat, Ok 8%nat)].
Proof. split; reflexivity. Qed.

Lemma assoc_app_fresh {A} (k : string) (l : list (string * A)) (v : A) :
  assoc k l = None -> assoc k (l ++ [(k, v)])%list = Some v.
Proof.
  induction l as [|[k' v'] l IH]; simpl; intros H.
  - rewrite String.eqb_refl. reflexivity.
  - destruct (String.eqb k k'); [discriminate | exact (IH H)].
Qed.

Lemma assoc_app_some {A} (k : string) (l l' : list (string * A)) (v : A) :
  assoc k l = Some v -> assoc k (l ++ l')%list = Some v.
Proof.
  induction l as [|[k' v'] l IH]; simpl; intros H; [discriminate|].
  destruct (String.eqb k k'); [exact H | exact (IH H)].
Qed.

Lemma assoc_filter_other {A} (l : list (string * A)) (k u : string) :
  k <> u -> assoc k (filter (fun e => negb (String.eqb (fst e) u)) l) = assoc k l.
Proof.
  intros Hku. induction l as [|[k' v] l IH]; simpl; [reflexivity|].
  destruct (String.eqb k' u) eqn:E; simpl.
  - apply String.eqb_eq in E. subst k'.
    destruct (String.eqb k u) eqn:E'; [apply String.eqb_eq in E'; contradiction|exact IH].
  - destruct (String.eqb k k'); [reflexivity|exact IH].
Qed.

Lemma existsb_app_single_false (l : list string) (url u : string) :
  url <> u -> existsb (String.eqb url) l = false ->
  existsb (String.eqb url) (l ++ [u])%list = false.
Proof.
  intros Hne H. rewrite existsb_app, H. simpl.
  destruct (String.eqb url u) eqn:E; [apply String.eqb_eq in E; contradiction|reflexivity].
Qed.

(** A load promise for [url], named [id], is pending in a lazy pack that
    has not loaded [url] yet. *)
Definition promise_pending (url : string) (id : nat) (pk : PackBundle.pack) : Prop :=
  PackBundle.lazyLoad pk = true /\
  existsb (String.eqb url) (PackBundle.loadedSounds pk) = false /\
  assoc url (PackBundle.loadingPromises pk) = Some id.

Lemma promise_pending_apply m basePath support url id pk e :
  promise_pending url id pk -> (forall r, e <> PackBundle.PkSettle url r) ->
  promise_pending url id (PackBundle.pack_apply m basePath support pk e).
Proof.
  intros [Hl [Hn Ha]] He. destruct e as [ev|path|u r]; simpl.
  - repeat split; assumption.
  - unfold PackBundle.play_start, promise_pending.
    destruct (resolveSound m path) as [[file d]|e0]; simpl; [|repeat split; assumption].
    destruct (_ && _); simpl; [|repeat split; assumption].
    lazymatch goal with
    | |- context [assoc ?u (PackBundle.loadingPromises pk)] =>
        destruct (assoc u (PackBundle.loadingPromises pk)) eqn:Hu
    end; simpl; [repeat split; assumption|].
    repeat split; try assumption. apply assoc_app_some, Ha.
  - assert (Hu : url <> u) by (intros ->; exact (He r eq_refl)).
    unfold PackBundle.on_settled. repeat split; simpl.
    + exact Hl.
    + destruct r; [apply existsb_app_single_false; assumption|exact Hn].
    + rewrite assoc_filter_other by exact Hu. exact Ha.
Qed.

Lemma promise_pending_run m basePath support url id pk es :
  promise_pending url id pk -> Forall (fun e => forall r, e <> PackBundle.PkSettle url r) es ->
  promise_pending url id (PackBundle.pack_run m basePath support pk es).
Proof.
  unfold PackBundle.pack_run. revert pk.
  induction es as [|e es IH]; intros pk H Hes; simpl; [exact H|].
  inversion Hes as [|? ? He Hes']. subst.
  apply IH; [apply promise_pending_apply|]; assumption.
Qed.

(** What a [play_start] that awaits a load promise tells about the pack it
    leaves. *)
Lemma play_start_waitload m basePath support pk path pk1 id url :
  PackBundle.play_start m basePath support pk path = (pk1, PackBundle.WaitLoad id url) ->
  (exists file d, resolveSound m path = Ok (file, d) /\
     url = basePath ++ "/" ++ m_name m ++ "/" ++ PackBundle.getBestFormat m support file) /\
  promise_pending url id pk1 /\
  (PackBundle.pk_proc pk1 = PackBundle.pk_proc pk \/
   PackBundle.pk_proc pk1 = step (PackBundle.pk_proc pk) (LoadSound id url)).
Proof.
  unfold PackBundle.play_start.
  destruct (resolveSound m path) as [[file d]|e0]; [|discriminate].
  set (u := basePath ++ "/" ++ m_name m ++ "/" ++ PackBundle.getBestFormat m support file).
  destruct (PackBundle.lazyLoad pk && negb (existsb (String.eqb u) (PackBundle.loadedSounds pk)))
    eqn:Hc; [|discriminate].
  apply andb_prop in Hc. destruct Hc as [Hl Hn]. apply negb_true_iff in Hn.
  destruct (assoc u (PackBundle.loadingPromises pk)) as [id0|] eqn:Ha; intros Hs;
    inversion Hs; subst; clear Hs.
  - split; [exists file, d; split; reflexivity|]. split; [|left; reflexivity].
    repeat split; assumption.
  - split; [exists file, d; split; reflexivity|]. split; [|right; reflexivity].
    repeat split; simpl; try assumption. apply assoc_app_fresh, Ha.
Qed.

Lemma play_start_pending m basePath support pk path file d url id :
  resolveSound m path = Ok (file, d) ->
  url = basePath ++ "/" ++ m_name m ++ "/" ++ PackBundle.getBestFormat m support file ->
  promise_pending url id pk ->
  PackBundle.play_start m basePath support pk path = (pk, PackBundle.WaitLoad id url).
Proof.
  intros Hr Hu [Hl [Hn Ha]]. unfold PackBundle.play_start. rewrite Hr.
  cbv beta iota zeta. rewrite <- Hu, Hl, Hn, Ha. reflexivity.
Qed.

Lemma play_start_promised m basePath support pk path file d url id :
  resolveSound m path = Ok (file, d) ->
  url = basePath ++ "/" ++ m_name m ++ "/" ++ PackBundle.getBestFormat m support file ->
  assoc url (PackBundle.loadingPromises pk) = Some id ->
  PackBundle.play_start m basePath support pk path =
    (pk, if PackBundle.lazyLoad pk && negb (existsb (String.eqb url) (PackBundle.loadedSounds pk))
         then PackBundle.WaitLoad id url else PackBundle.NoWait url).
Proof.
  intros Hr Hu Ha. unfold PackBundle.play_start. rewrite Hr.
  cbv beta iota zeta. rewrite <- Hu.
  destruct (PackBundle.lazyLoad pk && negb (existsb (String.eqb url) (PackBundle.loadedSounds pk)));
    [rewrite Ha|]; reflexivity.
Qed.

(** C1 (amended): [loadSound] does not deduplicate; the bundled
    [SoundPack.play] does. The synchronous prefix of a [play] that awaits a
    load starts at most that one [loadSound]; and however the processor
    steps and whatever other [play] calls run in between, as long as that
    load promise has not settled, a later [play] of the same path starts no
    load, leaves the pack unchanged and awaits the same promise. More
    generally, in any pack whose [loadingPromises] holds the path's URL, a
    [play] of the path starts no load and leaves the pack unchanged: it
    awaits that promise when the pack is lazy and has not loaded the URL,
    and plays at once otherwise. *)
Theorem play_lazy_load_dedup (m : manifest) (basePath : string)
  (support : format_support) (pk pk1 : PackBundle.pack) (path url : string) (id : nat)
  (evs : list PackBundle.pack_event)
  (Hs : PackBundle.play_start m basePath support pk path = (pk1, PackBundle.WaitLoad id url))
  (Hns : Forall (fun e => forall r, e <> PackBundle.PkSettle url r) evs) :
  (PackBundle.pk_proc pk1 = PackBundle.pk_proc pk \/
   PackBundle.pk_proc pk1 = step (PackBundle.pk_proc pk) (LoadSound id url)) /\
  (let pk2 := PackBundle.pack_run m basePath support pk1 evs in
   PackBundle.play_start m basePath support pk2 path = (pk2, PackBundle.WaitLoad id url)) /\
  forall pk' id', assoc url (PackBundle.loadingPromises pk') = Some id' ->
    PackBundle.play_start m basePath support pk' path =
      (pk', if PackBundle.lazyLoad pk' &&
               negb (existsb (String.eqb url) (PackBundle.loadedSounds pk'))
            then PackBundle.WaitLoad id' url else PackBundle.NoWait url).
Proof.
  destruct (play_start_waitload _ _ _ _ _ _ _ _ Hs) as [[file [d [Hr Hu]]] [Hp Hproc]].
  split; [exact Hproc|]. split.
  - apply (play_start_pending m basePath support _ path file d url id Hr Hu).
    apply promise_pending_run; assumption.
  - intros pk' id' Ha. exact (play_start_promised m basePath support pk' path file d url id' Hr Hu Ha).
Qed.

Lemma play_lazy_load_dedup_witness :
  let pk := {| PackBundle.pk_proc := new_processor true; PackBundle.lazyLoad := true;
               PackBundle.loadedSounds := []; PackBundle.loadingPromises := [];
               PackBundle.next_id := 0 |} in
  let support := fun _ : audio_format => true in
  let pk1 := fst (PackBundle.play_start variant_manifest "/s" support pk "ui.click") in
  let url := "/s/pack/c1.ogg" in
  let evs := [PackBundle.PkStep (ResumeInit 0); PackBundle.PkPlay "ui.click";
              PackBundle.PkSettle "/s/pack/other.ogg" (Err ErrFetch);
              PackBundle.PkStep (ResumeFetch 0 (FetchResponse true 200))] in
  PackBundle.play_start variant_manifest "/s" support pk "ui.click" =
    (pk1, PackBundle.WaitLoad 0 url) /\
  Forall (fun e => forall r, e <> PackBundle.PkSettle url r) evs /\
  ((PackBundle.pk_proc pk1 = PackBundle.pk_proc pk \/
    PackBundle.pk_proc pk1 = step (PackBundle.pk_proc pk) (LoadSound 0 url)) /\
  (let pk2 := PackBundle.pack_run variant_manifest "/s" support pk1 evs in
   PackBundle.play_start variant_manifest "/s" support pk2 "ui.click" =
     (pk2, PackBundle.WaitLoad 0 url)) /\
  forall pk' id', assoc url (PackBundle.loadingPromises pk') = Some id' ->
    PackBundle.play_start variant_manifest "/s" support pk' "ui.click" =
      (pk', if PackBundle.lazyLoad pk' &&
               negb (existsb (String.eqb url) (PackBundle.loadedSounds pk'))
            then PackBundle.WaitLoad id' url else PackBundle.NoWait url)).
Proof.
  intros pk support pk1 url evs.
  assert (Hs : PackBundle.play_start variant_manifest "/s" support pk "ui.click" =
               (pk1, PackBundle.WaitLoad 0 url)) by reflexivity.
  assert (Hns : Forall (fun e => forall r, e <> PackBundle.PkSettle url r) evs).
  { repeat constructor; intros r H; discriminate H. }
  split; [exact Hs|]. split; [exact Hns|].
  exact (play_lazy_load_dedup variant_manifest "/s" support pk pk1 "ui.click" url 0 evs Hs Hns).
Defined.

(** ** Fallback strategy *)

(** C3: when the [try] block of [play] fails, the manifest's fallback
    decides: ["error"] rejects with that same error, ["silence"] and
    ["synth"] resolve to the dummy value, which plays nothing; a path
    missing from the manifest is such a failure. *)
Theorem play_fallback_governs (m : manifest) (basePath : string)
  (support : format_support) (now : Q) (ctx : bool)
  (load : string -> result buf) (path : string) (options : playback_options)
  (e : err)
  (Hfail : PackSrc.play_body m basePath support now ctx load path options = Err e) :
  (PackSrc.fallback_of m = FError ->
     PackSrc.play m basePath support now ctx load path options = Err e) /\
  (PackSrc.fallback_of m <> FError ->
     PackSrc.play m basePath support now ctx load path options = Ok PackSrc.Dummy /\
     PackSrc.audible PackSrc.Dummy = false) /\
  (lookup_sound m path = None ->
     PackSrc.play_body m basePath support now ctx load path options =
       Err (ErrNotFound path)).
Proof.
  split; [|split].
  - unfold PackSrc.play. rewrite Hfail. intros ->. reflexivity.
  - unfold PackSrc.play. rewrite Hfail.
    destruct (PackSrc.fallback_of m); intros Hn; [split; reflexivity | split; reflexivity |].
    exfalso. apply Hn. reflexivity.
  - intros Hl. unfold PackSrc.play_body, resolveSound. rewrite Hl. reflexivity.
Qed.

Lemma play_fallback_governs_witness :
  let m := {| m_name := "pack"; m_sounds := [];
              m_formats := Some {| preferred := [Ogg]; fallback := FSilence |} |} in
  PackSrc.play_body m "/sounds" (fun _ => true) 0 true (fun _ => Ok 0%nat)
    "click.primary" no_options = Err (ErrNotFound "click.primary") /\
  PackSrc.play m "/sounds" (fun _ => true) 0 true (fun _ => Ok 0%nat)
    "click.primary" no_options = Ok PackSrc.Dummy.
Proof.
  intros m.
  assert (Hb : PackSrc.play_body m "/sounds" (fun _ => true) 0 true (fun _ => Ok 0%nat)
                 "click.primary" no_options = Err (ErrNotFound "click.primary"))
    by reflexivity.
  split; [exact Hb|].
  destruct (play_fallback_governs m "/sounds" (fun _ => true) 0 true (fun _ => Ok 0%nat)
              "click.primary" no_options _ Hb) as [_ [Hs _]].
  apply Hs. discriminate.
Defined.

(** ** The cache bound and FIFO eviction *)

Open Scope nat_scope.

Definition keys (c : list (string * buf)) : list string := map fst c.

Lemma run_cons (p : processor) ev evs : run p (ev :: evs) = run (step p ev) evs.
Proof. reflexivity. Qed.

Lemma run_app (p : processor) evs1 evs2 : run p (evs1 ++ evs2)%list = run (run p evs1) evs2.
Proof. unfold run. apply fold_left_app. Qed.

(** Every event either leaves the cache alone or evicts and sets one key;
    the limit and the context never change. *)
Lemma step_cache_shape (p : processor) (ev : event) :
  maxCacheSize (step p ev) = maxCacheSize p /\
  context (step p ev) = context p /\
  (cache (step p ev) = cache p \/
   exists k b, cache (step p ev) = cache_set (evict (maxCacheSize p) (cache p)) k b).
Proof.
  destruct ev as [id url|id|id r|id d]; simpl.
  - destruct (assoc url (cache p)); simpl; auto.
  - destruct (find_pending id AwaitInit (pending_ops p)); simpl; auto.
    destruct (context p) eqn:Hc; simpl; auto.
  - destruct (find_pending id AwaitFetch (pending_ops p)); simpl; auto.
    destruct r as [|[|] st]; simpl; auto.
  - destruct (find_pending id AwaitDecode (pending_ops p)) as [o|]; simpl; auto.
    destruct d as [b|]; simpl; auto.
    repeat split; auto. right. exists (p_url o), b. reflexivity.
Qed.

Lemma run_max (p : processor) evs : maxCacheSize (run p evs) = maxCacheSize p.
Proof.
  revert p. induction evs as [|ev evs IH]; intros p; [reflexivity|].
  rewrite run_cons, IH. apply step_cache_shape.
Qed.

Lemma keys_cache_set (c : list (string * buf)) k v :
  keys (cache_set c k v) =
  if existsb (String.eqb k) (keys c) then keys c else (keys c ++ [k])%list.
Proof.
  induction c as [|[k' v'] c IH]; simpl; [reflexivity|].
  destruct (String.eqb k k') eqn:E; simpl.
  - apply String.eqb_eq in E. subst. reflexivity.
  - rewrite IH. destruct (existsb (String.eqb k) (keys c)); reflexivity.
Qed.

Lemma length_cache_set (c : list (string * buf)) k v :
  List.length (cache_set c k v) <= S (List.length c).
Proof.
  induction c as [|[k' v'] c IH]; simpl; [lia|].
  destruct (String.eqb k k'); simpl; lia.
Qed.

Lemma in_keys_cache_set (c : list (string * buf)) k v x :
  In x (keys c) -> In x (keys (cache_set c k v)).
Proof.
  rewrite keys_cache_set. destruct (existsb _ _); auto.
  intros H. apply in_or_app. left. exact H.
Qed.

Lemma length_evict_set (n : nat) (c : list (string * buf)) k v :
  1 <= n -> List.length c <= n -> List.length (cache_set (evict n c) k v) <= n.
Proof.
  intros Hn Hc. pose proof (length_cache_set (evict n c) k v) as H.
  unfold evict in *. destruct (Nat.leb n (List.length c)) eqn:E.
  - apply Nat.leb_le in E. destruct c as [|e c]; simpl in *; lia.
  - apply Nat.leb_gt in E. lia.
Qed.

Lemma run_bound (p : processor) evs :
  1 <= maxCacheSize p -> List.length (cache p) <= maxCacheSize p ->
  List.length (cache (run p evs)) <= maxCacheSize p.
Proof.
  revert p. induction evs as [|ev evs IH]; intros p Hn Hc; [exact Hc|].
  rewrite run_cons.
  destruct (step_cache_shape p ev) as [Hm [_ [Hsame | [k [b Hset]]]]];
    rewrite <- Hm; apply IH; rewrite Hm; auto.
  - rewrite Hsame. exact Hc.
  - rewrite Hset. apply length_evict_set; assumption.
Qed.

(** A key leaves the cache only as the oldest entry of a full cache. *)
Lemma step_removes_oldest (q : processor) (ev : event) (x : string) :
  In x (keys (cache q)) -> ~ In x (keys (cache (step q ev))) ->
  hd_error (keys (cache q)) = Some x /\ maxCacheSize q <= List.length (cache q).
Proof.
  intros Hin Hout.
  destruct (step_cache_shape q ev) as [_ [_ [Hsame | [k [b Hset]]]]].
  - rewrite Hsame in Hout. contradiction.
  - rewrite Hset in Hout. unfold evict in Hout.
    destruct (Nat.leb (maxCacheSize q) (List.length (cache q))) eqn:E.
    + apply Nat.leb_le in E.
      destruct (cache q) as [|[y v] c] eqn:Hc; simpl in Hin; [contradiction|].
      destruct Hin as [-> | Hin].
      * split; [reflexivity | exact E].
      * exfalso. apply Hout. apply in_keys_cache_set. exact Hin.
    + exfalso. apply Hout. apply in_keys_cache_set. exact Hin.
Qed.

Lemma assoc_none_keys (c : list (string * buf)) k :
  assoc k c = None <-> ~ In k (keys c).
Proof.
  induction c as [|[k' v] c IH]; simpl; [tauto|].
  destruct (String.eqb k k') eqn:E.
  - apply String.eqb_eq in E. subst. split; [discriminate | intros H; exfalso; auto].
  - apply String.eqb_neq in E. rewrite IH. split.
    + intros H [H1|H1]; [congruence | auto].
    + intros H H1. apply H. right. exact H1.
Qed.

Lemma existsb_eqb_false (l : list string) k :
  ~ In k l -> existsb (String.eqb k) l = false.
Proof.
  intros H. apply Bool.not_true_iff_false. intros H1.
  apply existsb_exists in H1 as [x [Hx E]]. apply String.eqb_eq in E. subst. auto.
Qed.

(** One successful [loadSound(url)] of an uncached [url], run alone. *)
Lemma run_load_ok (q : processor) id url b :
  pending_ops q = [] -> context q = true -> assoc url (cache q) = None ->
  let q' := run q (load_ok_events id url b) in
  cache q' = cache_set (evict (maxCacheSize q) (cache q)) url b /\
  pending_ops q' = [] /\ context q' = true /\ maxCacheSize q' = maxCacheSize q.
Proof.
  intros Hp Hc Hn. unfold load_ok_events, run. simpl.
  rewrite Hn. simpl. unfold find_pending. simpl. rewrite Hp, Nat.eqb_refl. simpl.
  rewrite Hc. simpl. rewrite Nat.eqb_refl. simpl. rewrite Nat.eqb_refl. simpl.
  rewrite Nat.eqb_refl. simpl. auto.
Qed.

Lemma keys_length (c : list (string * buf)) : List.length (keys c) = List.length c.
Proof. apply length_map. Qed.

(** Sequential successful loads of distinct, uncached URLs keep the most
    recent [maxCacheSize] of them, in insertion order. *)
Lemma run_load_all (q : processor) k urls :
  pending_ops q = [] -> context q = true ->
  1 <= maxCacheSize q -> List.length (cache q) <= maxCacheSize q ->
  NoDup (keys (cache q) ++ urls)%list ->
  let q' := run q (load_all_events k urls) in
  keys (cache q') =
    skipn (List.length (cache q) + List.length urls - maxCacheSize q)
      (keys (cache q) ++ urls)%list /\
  pending_ops q' = [] /\ context q' = true /\ maxCacheSize q' = maxCacheSize q /\
  List.length (cache q') <= maxCacheSize q.
Proof.
  revert q k. induction urls as [|u us IH]; intros q k Hp Hc Hn Hlen Hnd.
  - simpl. rewrite app_nil_r, Nat.add_0_r.
    replace (List.length (cache q) - maxCacheSize q) with 0 by lia. auto.
  - cbn [load_all_events]. rewrite run_app.
    assert (Hu : assoc u (cache q) = None).
    { apply assoc_none_keys. intros H. apply NoDup_remove_2 in Hnd.
      apply Hnd. apply in_or_app. left. exact H. }
    destruct (run_load_ok q k u k Hp Hc Hu) as [Hcache [Hp1 [Hc1 Hm1]]].
    set (q1 := run q (load_ok_events k u k)) in *.
    set (N := maxCacheSize q) in *.
    assert (Hnin : ~ In u (keys (evict N (cache q)))).
    { intros H. apply (proj1 (assoc_none_keys _ _) Hu). unfold evict in H.
      destruct (Nat.leb N (List.length (cache q))); [|exact H].
      destruct (cache q) as [|e c]; simpl in *; [exact H | right; exact H]. }
    assert (Hk1 : keys (cache q1) = (keys (evict N (cache q)) ++ [u])%list).
    { rewrite Hcache, keys_cache_set, existsb_eqb_false by exact Hnin. reflexivity. }
    assert (Hl1 : List.length (cache q1) <= N).
    { rewrite Hcache. apply length_evict_set; assumption. }
    unfold evict in Hk1.
    destruct (Nat.leb N (List.length (cache q))) eqn:E.
    + apply Nat.leb_le in E.
      destruct (cache q) as [|[y v] c] eqn:Hcq; simpl in E, Hlen; [lia|].
      simpl in Hk1.
      assert (Hnd1 : NoDup (keys (cache q1) ++ us)%list).
      { rewrite Hk1, <- app_assoc. simpl in Hnd. inversion Hnd. assumption. }
      assert (HL : List.length (cache q1) = N).
      { rewrite <- keys_length, Hk1, length_app, keys_length. simpl. lia. }
      destruct (IH q1 (S k) Hp1 Hc1 ltac:(rewrite Hm1; exact Hn)
                  ltac:(rewrite Hm1; lia) Hnd1) as [Hks [Hp2 [Hc2 [Hm2 Hl2]]]].
      rewrite Hm1 in *. rewrite Hm2.
      split; [|split; [exact Hp2 | split; [exact Hc2 | split; [reflexivity | exact Hl2]]]].
      rewrite Hks, HL, Hk1, <- app_assoc.
      replace (N + List.length us - N) with (List.length us) by lia.
      replace (List.length ((y, v) :: c) + List.length (u :: us) - N)
        with (S (List.length us)) by (cbn [Datatypes.length]; lia).
      reflexivity.
    + apply Nat.leb_gt in E.
      assert (Hnd1 : NoDup (keys (cache q1) ++ us)%list).
      { rewrite Hk1, <- app_assoc. exact Hnd. }
      assert (HL : List.length (cache q1) = S (List.length (cache q))).
      { rewrite <- keys_length, Hk1, length_app, keys_length. simpl. lia. }
      destruct (IH q1 (S k) Hp1 Hc1 ltac:(rewrite Hm1; exact Hn)
                  ltac:(rewrite Hm1; lia) Hnd1) as [Hks [Hp2 [Hc2 [Hm2 Hl2]]]].
      rewrite Hm1 in *. rewrite Hm2.
      split; [|split; [exact Hp2 | split; [exact Hc2 | split; [reflexivity | exact Hl2]]]].
      rewrite Hks, HL, Hk1, <- app_assoc.
      replace (S (List.length (cache q)) + List.length us - N)
        with (List.length (cache q) + List.length (u :: us) - N) by (cbn [Datatypes.length]; lia).
      reflexivity.
Qed.

(** C2: with a limit [maxCacheSize] of at least 1, the cache never holds
    more entries than the limit; an entry only ever leaves the cache as
    the oldest-inserted entry of a full cache; a cache hit does not reorder
    it (FIFO, not LRU); and after [maxCacheSize + 1] successful loads of
    distinct URLs into an empty cache it holds exactly [maxCacheSize]
    entries, all URLs but the first. *)
Theorem cache_bounded_fifo (p : processor)
  (Hn : 1 <= maxCacheSize p) (Hc : List.length (cache p) <= maxCacheSize p) :
  (forall evs, List.length (cache (run p evs)) <= maxCacheSize p) /\
  (forall evs ev x,
     In x (keys (cache (run p evs))) ->
     ~ In x (keys (cache (run p (evs ++ [ev])%list))) ->
     hd_error (keys (cache (run p evs))) = Some x /\
     maxCacheSize p <= List.length (cache (run p evs))) /\
  (forall evs id url b,
     assoc url (cache (run p evs)) = Some b ->
     cache (run p (evs ++ [LoadSound id url])%list) = cache (run p evs)) /\
  (cache p = [] -> pending_ops p = [] -> context p = true ->
   forall k urls,
     NoDup urls -> List.length urls = S (maxCacheSize p) ->
     let p' := run p (load_all_events k urls) in
     List.length (cache p') = maxCacheSize p /\
     ~ In (hd EmptyString urls) (keys (cache p')) /\
     keys (cache p') = tl urls).
Proof.
  split; [|split; [|split]].
  - intros evs. apply run_bound; assumption.
  - intros evs ev x Hin Hout. rewrite run_app in Hout. simpl in Hout.
    rewrite <- (run_max p evs). apply (step_removes_oldest _ ev); assumption.
  - intros evs id url b Hb. rewrite run_app. simpl. rewrite Hb. reflexivity.
  - intros He Hp Hctx k urls Hnd Hlen.
    assert (Hnd' : NoDup (keys (cache p) ++ urls)%list) by (rewrite He; exact Hnd).
    destruct (run_load_all p k urls Hp Hctx Hn Hc Hnd') as [Hk [_ [_ [_ _]]]].
    cbv zeta in Hk. rewrite He in Hk. cbn [keys map List.length app] in Hk.
    rewrite Hlen in Hk. replace (0 + S (maxCacheSize p) - maxCacheSize p) with 1 in Hk by lia.
    destruct urls as [|u us]; [discriminate|].
    simpl in Hk, Hlen |- *. rewrite <- keys_length, Hk.
    inversion Hnd as [|? ? Hu _]. subst. split; [lia | split; [exact Hu | reflexivity]].
Qed.

Lemma cache_bounded_fifo_witness :
  1 <= maxCacheSize (new_processor true) /\
  List.length (cache (new_processor true)) <= maxCacheSize (new_processor true) /\
  List.length (cache (run (new_processor true) (load_all_events 0 ["a"; "b"; "c"])))
    <= maxCacheSize (new_processor true).
Proof.
  assert (H1 : 1 <= maxCacheSize (new_processor true)) by (cbn; lia).
  assert (H2 : List.length (cache (new_processor true)) <= maxCacheSize (new_processor true))
    by (cbn; lia).
  split; [exact H1 | split; [exact H2|]].
  exact (proj1 (cache_bounded_fifo (new_processor true) H1 H2) _).
Defined.

(** ** Failed loads *)

Lemma app_single_neq {A} (l : list A) (x : A) : l <> (l ++ [x])%list.
Proof. intros H. apply (f_equal (@List.length A)) in H. rewrite length_app in H. simpl in H. lia. Qed.

(** C10: a [loadSound] activation that fails (no context, rejected fetch,
    non-ok status, undecodable payload) settles with its error and leaves
    the cache as it was; a non-ok status and a decode failure settle with
    exactly those errors; and a later [loadSound] of an uncached URL
    fetches it again. *)
Theorem loadSound_failure_not_cached (p : processor) (ev : event) (id : nat) (e : err)
  (Hfail : settled (step p ev) = (settled p ++ [(id, Err e)])%list) :
  cache (step p ev) = cache p /\
  (forall url id',
     assoc url (cache p) = None -> context p = true ->
     fetched (run (step p ev) [LoadSound id' url; ResumeInit id']) =
       (fetched (step p ev) ++ [url])%list) /\
  (forall o status,
     find_pending id AwaitFetch (pending_ops p) = Some o ->
     settled (step p (ResumeFetch id (FetchResponse false status))) =
       (settled p ++ [(id, Err (ErrHttp status))])%list) /\
  (forall o,
     find_pending id AwaitDecode (pending_ops p) = Some o ->
     settled (step p (ResumeDecode id None)) = (settled p ++ [(id, Err ErrDecode)])%list).
Proof.
  assert (Hcache : cache (step p ev) = cache p).
  { destruct ev as [id0 url|id0|id0 r|id0 d]; simpl in Hfail |- *.
    - destruct (assoc url (cache p)); simpl in *; [|reflexivity].
      apply app_inv_head in Hfail. discriminate.
    - destruct (find_pending id0 AwaitInit (pending_ops p)); simpl; [|reflexivity].
      destruct (context p); reflexivity.
    - destruct (find_pending id0 AwaitFetch (pending_ops p)); simpl; [|reflexivity].
      destruct r as [|[|] st]; reflexivity.
    - destruct (find_pending id0 AwaitDecode (pending_ops p)); simpl in *; [|reflexivity].
      destruct d; simpl in *; [|reflexivity].
      apply app_inv_head in Hfail. discriminate. }
  split; [exact Hcache | split; [|split]].
  - intros url id' Hu Hctx. destruct (step_cache_shape p ev) as [_ [Hc _]].
    unfold run. simpl. rewrite Hcache, Hu. simpl.
    unfold find_pending. simpl. rewrite Nat.eqb_refl. simpl.
    rewrite Hc, Hctx. reflexivity.
  - intros o status Ho. simpl. rewrite Ho. reflexivity.
  - intros o Ho. simpl. rewrite Ho. reflexivity.
Qed.

Lemma loadSound_failure_not_cached_witness :
  let p := run (new_processor true) [LoadSound 1 "u"; ResumeInit 1] in
  settled (step p (ResumeFetch 1 (FetchResponse false 404))) =
    (settled p ++ [(1, Err (ErrHttp 404))])%list /\
  cache (step p (ResumeFetch 1 (FetchResponse false 404))) = cache p.
Proof.
  intros p.
  assert (H : settled (step p (ResumeFetch 1 (FetchResponse false 404))) =
                (settled p ++ [(1, Err (ErrHttp 404))])%list) by reflexivity.
  split; [exact H|].
  exact (proj1 (loadSound_failure_not_cached p _ 1 _ H)).
Defined.

Open Scope Q_scope.

(** ** Volume ramp *)

(** C6 (code defect): [playWithPitch] always schedules a 0 to target ramp
    over 10 ms, but [playWithEffects] writes the (unclamped) volume straight
    into the gain, with no ramp, for every input. *)
Theorem playback_volume_paths (now : Q) (b : buf) (eff : effect_options)
  (opts : playback_options) :
  (exists s, playWithPitch now true (Ok b) opts = Ok s /\
     src_gain s = [SetValueAtTime 0 now;
                   LinearRampTo (clamp 0 1 (default 1 (po_volume opts))) (now + (1 # 100))]) /\
  (exists s, playWithEffects now true (Ok b) eff opts = Ok s /\
     src_gain s = [SetValue (default 1 (po_volume opts))]).
Proof. split; eexists; split; reflexivity. Qed.

(** ** Gradients *)

Lemma nth_error_map_seq {A} (f : nat -> A) (n i : nat) :
  (i < n)%nat -> nth_error (map f (seq 0 n)) i = Some (f i).
Proof.
  intros H. rewrite nth_error_map, nth_error_seq.
  apply Nat.ltb_lt in H. rewrite H. reflexivity.
Qed.

(** C7 refuted as stated, twice over: an absent [type] is not a plain
    replay, it defaults to ["pitch"], so the first callable of a 2-step
    gradient is pitched down; and a range of 0 is falsy, so [range || 8]
    spreads a ["pitch"] gradient over 8 semitones instead of playing every
    callable at pitch 0. *)
Lemma createGradient_falsy_defaults :
  nth_error (PackSrc.createGradient "click" 2 {| PackSrc.go_range := Some 8;
                                                 PackSrc.go_type := None |}) 0 <>
    Some {| PackSrc.c_path := "click"; PackSrc.c_options := no_options |} /\
  exists c q, nth_error (PackSrc.createGradient "click" 2
                           {| PackSrc.go_range := Some 0;
                              PackSrc.go_type := Some PackSrc.GPitch |}) 0 = Some c /\
    po_pitch (PackSrc.c_options c) = Some q /\ q == -4.
Proof.
  split; [vm_compute; discriminate|].
  do 2 eexists. split; [reflexivity|]. split; [reflexivity|]. reflexivity.
Qed.

(** C7 (amended): for [steps >= 2], [createGradient] returns [steps]
    callables; callable [i] plays with pitch [(i/(steps-1) - 0.5) * range]
    when the type is ["pitch"] or absent (an absent type defaults to
    ["pitch"]), where a falsy range (absent or 0) is read as 8; with volume
    [0.3 + 0.7 * i/(steps-1)] when it is ["volume"], whatever the range;
    and unmodified when it is ["filter"]. For 4 steps and range 8 the
    pitches are [-4, -4/3, 4/3, 4]. *)
Theorem createGradient_values (soundPath : string) (steps : nat)
  (options : PackSrc.gradient_options)
  (Hsteps : (2 <= steps)%nat) :
  List.length (PackSrc.createGradient soundPath steps options) = steps /\
  (forall i : nat, (i < steps)%nat ->
     nth_error (PackSrc.createGradient soundPath steps options) i =
     Some {| PackSrc.c_path := soundPath;
             PackSrc.c_options :=
               match PackSrc.go_type options with
               | Some PackSrc.GVolume =>
                   PackSrc.with_volume
                     ((3 # 10) + (7 # 10) * (PackSrc.nat_Q i / (PackSrc.nat_Q steps - 1)))
               | Some PackSrc.GFilter => no_options
               | _ =>
                   PackSrc.with_pitch
                     ((PackSrc.nat_Q i / (PackSrc.nat_Q steps - 1) - (1 # 2)) *
                      match PackSrc.go_range options with
                      | Some r => if Qeq_bool r 0 then 8 else r
                      | None => 8
                      end)
               end |}) /\
  Forall2 (fun c q => exists q', po_pitch (PackSrc.c_options c) = Some q' /\ q' == q)
    (PackSrc.createGradient soundPath 4 {| PackSrc.go_range := Some 8;
                                           PackSrc.go_type := Some PackSrc.GPitch |})
    [-4; -4 # 3; 4 # 3; 4].
Proof.
  assert (Hr : default 8 (truthy (PackSrc.go_range options)) =
               match PackSrc.go_range options with
               | Some r => if Qeq_bool r 0 then 8 else r
               | None => 8
               end).
  { destruct (PackSrc.go_range options) as [r|]; [|reflexivity].
    unfold truthy. destruct (Qeq_bool r 0); reflexivity. }
  split; [|split].
  - unfold PackSrc.createGradient.
    destruct (default PackSrc.GPitch (PackSrc.go_type options));
      rewrite length_map, length_seq; reflexivity.
  - intros i Hi. unfold PackSrc.createGradient. rewrite Hr.
    destruct (PackSrc.go_type options) as [[| |]|]; simpl;
      rewrite nth_error_map_seq by exact Hi; reflexivity.
  - repeat constructor; eexists; split; reflexivity.
Qed.

Lemma createGradient_values_witness :
  (2 <= 4)%nat /\
  nth_error (PackSrc.createGradient "click" 4 {| PackSrc.go_range := Some 0;
                                                 PackSrc.go_type := Some PackSrc.GVolume |}) 3%nat =
    Some {| PackSrc.c_path := "click";
            PackSrc.c_options :=
              PackSrc.with_volume ((3 # 10) + (7 # 10) *
                                   (PackSrc.nat_Q 3%nat / (PackSrc.nat_Q 4%nat - 1))) |}.
Proof.
  split; [lia|].
  exact (proj1 (proj2 (createGradient_values "click" 4
            {| PackSrc.go_range := Some 0; PackSrc.go_type := Some PackSrc.GVolume |}
            ltac:(lia))) 3%nat ltac:(lia)).
Defined.

(** ** Harmonic sets *)

(** C8: [createHarmonicSet] returns [count] callables; callable [i] plays
    with pitch [intervals[i mod n] + 12 * floor(i / n)] for the scale's
    table of length [n]; with the 6-entry pentatonic table, index 6 plays
    pitch 12. *)
Theorem createHarmonicSet_pitches (soundPath : string) (count : nat)
  (scale : PackSrc.musical_scale) :
  let intervals := PackSrc.scales scale in
  List.length (PackSrc.createHarmonicSet soundPath count scale) = count /\
  (forall i : nat, (i < count)%nat ->
     nth_error (PackSrc.createHarmonicSet soundPath count scale) i =
     Some {| PackSrc.c_path := soundPath;
             PackSrc.c_options :=
               PackSrc.with_pitch
                 (inject_Z (nth (Nat.modulo i (List.length intervals)) intervals 0%Z +
                            12 * Z.of_nat (Nat.div i (List.length intervals)))%Z) |}) /\
  List.length (PackSrc.scales PackSrc.Pentatonic) = 6%nat /\
  nth_error (PackSrc.createHarmonicSet soundPath 7 PackSrc.Pentatonic) 6 =
    Some {| PackSrc.c_path := soundPath; PackSrc.c_options := PackSrc.with_pitch 12 |}.
Proof.
  intros intervals. split; [|split; [|split]].
  - unfold PackSrc.createHarmonicSet. rewrite length_map, length_seq. reflexivity.
  - intros i Hi. unfold PackSrc.createHarmonicSet.
    rewrite nth_error_map_seq by exact Hi. fold intervals.
    rewrite (Z.mul_comm 12). reflexivity.
  - reflexivity.
  - reflexivity.
Qed.

Lemma createHarmonicSet_pitches_witness :
  (3 < 7)%nat /\
  nth_error (PackSrc.createHarmonicSet "click" 7 PackSrc.Major) 3 =
    Some {| PackSrc.c_path := "click"; PackSrc.c_options := PackSrc.with_pitch 5 |}.
Proof.
  split; [lia|].
  refine (eq_trans (proj1 (proj2 (createHarmonicSet_pitches "click" 7 PackSrc.Major)) 3%nat
                      ltac:(lia)) _).
  reflexivity.
Defined.

(** ** Pitch clamping *)

Lemma clamp_bounds (lo hi x : Q) :
  lo <= hi -> lo <= clamp lo hi x <= hi.
Proof.
  intros H. unfold clamp. split.
  - apply Q.le_max_l.
  - apply Q.max_lub; [exact H | apply Q.le_min_l].
Qed.

Lemma clamp_inside (lo hi x : Q) : lo <= x -> x <= hi -> clamp lo hi x == x.
Proof.
  intros H1 H2. unfold clamp. rewrite (Q.min_r hi x H2). apply Q.max_r. exact H1.
Qed.

Lemma clamp_above (lo hi x : Q) : lo <= hi -> hi <= x -> clamp lo hi x == hi.
Proof.
  intros H1 H2. unfold clamp. rewrite (Q.min_l hi x H2). apply Q.max_r. exact H1.
Qed.

Lemma clamp_below (lo hi x : Q) : lo <= hi -> x <= lo -> clamp lo hi x == lo.
Proof.
  intros H1 H2. unfold clamp. apply Q.max_l.
  apply (Qle_trans _ x); [apply Q.le_min_r | exact H2].
Qed.

(** C9: on both playback paths a supplied pitch [p] is never rejected:
    the first write to [playbackRate] is [2^(clamp(p)/12)] with [clamp(p)]
    in [-24, 24], equal to [p] inside that range and to the nearest bound
    outside it; [p = 100] is clamped to 24 and gives the multiplier 4. *)
Theorem pitch_clamped_rate (now : Q) (b : buf) (eff : effect_options)
  (options : playback_options) (p : Q)
  (Hp : po_pitch options = Some p) :
  (exists s, playWithPitch now true (Ok b) options = Ok s /\
     hd_error (src_rate_writes s) = Some (RPow2 (clamp (-24) 24 p / 12))) /\
  (exists s, playWithEffects now true (Ok b) eff options = Ok s /\
     src_rate_writes s = [RPow2 (clamp (-24) 24 p / 12)]) /\
  (-24 <= clamp (-24) 24 p <= 24) /\
  (-24 <= p -> p <= 24 -> clamp (-24) 24 p == p) /\
  (24 <= p -> clamp (-24) 24 p == 24) /\
  (p <= -24 -> clamp (-24) 24 p == -24) /\
  (clamp (-24) 24 100 == 24 /\ rate_value (RPow2 (clamp (-24) 24 100 / 12)) = 4%R).
Proof.
  split; [|split; [|split; [|split; [|split; [|split]]]]].
  - eexists. split; [reflexivity|]. simpl. unfold pitch_write. rewrite Hp. reflexivity.
  - eexists. split; [reflexivity|]. simpl. unfold pitch_write. rewrite Hp. reflexivity.
  - apply clamp_bounds. discriminate.
  - apply clamp_inside.
  - apply clamp_above. discriminate.
  - apply clamp_below. discriminate.
  - split; [reflexivity|].
    change (clamp (-24) 24 100 / 12) with (24 # 12). unfold rate_value.
    replace (Q2R (24 # 12)) with (INR 2) by (unfold Q2R; simpl; field).
    rewrite Rpower_pow by lra. simpl. ring.
Qed.

Lemma pitch_clamped_rate_witness :
  let o := {| po_pitch := Some 100; po_volume := None; po_detune := None;
              po_playbackRate := None |} in
  po_pitch o = Some 100 /\
  exists s, playWithPitch 0 true (Ok 0%nat) o = Ok s /\
    hd_error (src_rate_writes s) = Some (RPow2 (clamp (-24) 24 100 / 12)).
Proof.
  intros o. split; [reflexivity|].
  exact (proj1 (pitch_clamped_rate 0 0%nat
                  {| eo_lowpass := None; eo_highpass := None; eo_delay := None |}
                  o 100 eq_refl)).
Defined.

(** ** Synthesizer envelope and scheduling *)

Definition example_preset : Synth.synth_config :=
  {| Synth.frequency := 440;
     Synth.envelope_of := {| Synth.attack := 1 # 100; Synth.decay := 5 # 100;
                             Synth.sustain := 7 # 10; Synth.release := 3 # 10 |};
     Synth.modulation := Some {| Synth.mod_kind := Synth.Vibrato;
                                 Synth.mod_rate := 5; Synth.mod_depth := 1 # 10 |};
     Synth.harmonics := Some [1; 2];
     Synth.filter := None |}.

(** C5 refuted as stated: with a vibrato and attack + decay + release =
    0.36 s, the modulation oscillator is stopped at start + 2 s, not with
    the tone oscillators at start + 0.36 s. *)
Lemma playSound_lfo_outlives_envelope :
  match Synth.lfo_of (Synth.playSound 0 (fun _ => 1 # 2) example_preset) with
  | Some l => Synth.lfo_start l == 0 /\ Synth.lfo_stop l == 2 /\ ~ Synth.lfo_stop l == 36 # 100
  | None => False
  end.
Proof.
  vm_compute. split; [reflexivity | split; [reflexivity | discriminate]].
Qed.

(** C5 (amended): [playSound] drives the master gain 0 at [now], 1 at
    [now + attack], [sustain] at [now + attack + decay] and 0 at
    [now + attack + decay + release]; it builds one tone oscillator plus one
    per harmonic, all started at [now] and stopped at
    [now + (attack + decay + release)], the envelope's end; a modulation
    oscillator exists only for a modulation type other than ["none"], and
    it starts at [now] and stops at [now + 2]. *)
Theorem playSound_schedule (now : Q) (rnd : nat -> Q) (cfg : Synth.synth_config) :
  let env := Synth.envelope_of cfg in
  let s := Synth.playSound now rnd cfg in
  Synth.master_gain s =
    [SetValueAtTime 0 now;
     LinearRampTo 1 (now + Synth.attack env);
     LinearRampTo (Synth.sustain env) (now + Synth.attack env + Synth.decay env);
     LinearRampTo 0 (now + Synth.attack env + Synth.decay env + Synth.release env)] /\
  List.length (Synth.oscillators s) = S (List.length (default [] (Synth.harmonics cfg))) /\
  Forall (fun o => Synth.osc_start o = Some now /\
                   Synth.osc_stop o =
                     Some (now + (Synth.attack env + Synth.decay env + Synth.release env)))
    (Synth.oscillators s) /\
  now + (Synth.attack env + Synth.decay env + Synth.release env) ==
    now + Synth.attack env + Synth.decay env + Synth.release env /\
  match Synth.modulation cfg with
  | Some md =>
      match Synth.mod_kind md with
      | Synth.ModNone => Synth.lfo_of s = None
      | _ => exists l, Synth.lfo_of s = Some l /\ Synth.lfo_start l = now /\
                       Synth.lfo_stop l = now + 2
      end
  | None => Synth.lfo_of s = None
  end.
Proof.
  intros env s. split; [|split; [|split; [|split]]].
  - reflexivity.
  - subst s. unfold Synth.playSound. cbn [Synth.oscillators].
    rewrite !length_map. cbn [List.length]. f_equal.
    destruct (Synth.harmonics cfg) as [hs|]; cbn [default]; [|reflexivity].
    rewrite length_map, length_combine, length_seq, Nat.min_id. reflexivity.
  - subst s. unfold Synth.playSound. cbn [Synth.oscillators].
    rewrite map_map. apply Forall_forall. intros o Ho.
    apply in_map_iff in Ho as [o' [<- _]]. split; reflexivity.
  - subst env. ring.
  - subst s. unfold Synth.playSound. simpl Synth.lfo_of.
    destruct (Synth.modulation cfg) as [md|]; [|reflexivity].
    destruct (Synth.mod_kind md); [eexists; split; [reflexivity | split; reflexivity]..|reflexivity].
Qed.

(** ** Cache keys, hits, contexts and [clearCache] *)






Lemma assoc_cache_set (c : list (string * buf)) k v : assoc k (cache_set c k v) = Some v.
Proof.
  induction c as [|[k' v'] c IH]; simpl.
  - rewrite String.eqb_refl. reflexivity.
  - destruct (String.eqb k k') eqn:E; simpl.
    + rewrite String.eqb_refl. reflexivity.
    + rewrite E. exact IH.
Qed.

(** X2: once a [loadSound] activation stores its buffer, the next
    [loadSound] of the same URL is a cache hit: it resolves at once to that
    same buffer, issues no [fetch] and starts no activation. *)
Theorem loadSound_hit_after_store (p : processor) (id id' : nat) (o : pending) (b : buf)
  (Ho : find_pending id AwaitDecode (pending_ops p) = Some o) :
  let p1 := step p (ResumeDecode id (Some b)) in
  let p2 := step p1 (LoadSound id' (p_url o)) in
  settled p2 = (settled p ++ [(id, Ok b); (id', Ok b)])%list /\
  fetched p2 = fetched p /\ pending_ops p2 = pending_ops p1.
Proof.
  simpl. rewrite Ho. simpl. rewrite assoc_cache_set. simpl.
  rewrite <- app_assoc. auto.
Qed.

Lemma loadSound_hit_after_store_witness :
  let p := run (new_processor true)
             [LoadSound 1 "u"; ResumeInit 1; ResumeFetch 1 (FetchResponse true 200)] in
  find_pending 1 AwaitDecode (pending_ops p) =
    Some {| p_id := 1; p_url := "u"; p_stage := AwaitDecode |} /\
  settled (step (step p (ResumeDecode 1 (Some 7%nat))) (LoadSound 2 "u")) =
    [(1%nat, Ok 7%nat); (2%nat, Ok 7%nat)].
Proof.
  intros p. split; [reflexivity|].
  exact (proj1 (loadSound_hit_after_store p 1 2
                  {| p_id := 1; p_url := "u"; p_stage := AwaitDecode |} 7%nat eq_refl)).
Defined.

Lemma find_pending_init_only (ops : list pending) id s :
  Forall (fun o => p_stage o = AwaitInit) ops -> s <> AwaitInit ->
  find_pending id s ops = None.
Proof.
  intros H Hs. unfold find_pending.
  destruct (find _ ops) as [o|] eqn:E; [|reflexivity].
  apply find_some in E as [Hin Hb]. rewrite Forall_forall in H.
  apply andb_true_iff in Hb as [_ Hb]. rewrite (H o Hin) in Hb.
  destruct s; simpl in Hb; congruence.
Qed.

Lemma step_without_context (q : processor) (ev : event) :
  context q = false -> fetched q = [] -> cache q = [] ->
  Forall (fun o => p_stage o = AwaitInit) (pending_ops q) ->
  Forall (fun e => snd e = Err ErrNoContext) (settled q) ->
  let q' := step q ev in
  context q' = false /\ fetched q' = [] /\ cache q' = [] /\
  Forall (fun o => p_stage o = AwaitInit) (pending_ops q') /\
  Forall (fun e => snd e = Err ErrNoContext) (settled q').
Proof.
  intros Hx Hf Hc Hp Hs.
  destruct ev as [id url|id|id r|id d]; simpl.
  - rewrite Hc. simpl. repeat split; auto.
  - destruct (find_pending id AwaitInit (pending_ops q)) eqn:E; [|auto].
    rewrite Hx. simpl. repeat split; auto.
    + apply Forall_forall. intros x Hin. apply filter_In in Hin as [Hin _].
      rewrite Forall_forall in Hp. auto.
    + apply Forall_app. split; [exact Hs | constructor; [reflexivity | constructor]].
  - rewrite (find_pending_init_only _ id AwaitFetch Hp) by discriminate. auto.
  - rewrite (find_pending_init_only _ id AwaitDecode Hp) by discriminate. auto.
Qed.

(** X3: without an audio context (no [window]), [loadSound] never fetches
    and never caches: every call rejects with "AudioContext not
    available". *)
Theorem loadSound_without_context (evs : list event) :
  let q := run (new_processor false) evs in
  fetched q = [] /\ cache q = [] /\
  Forall (fun e => snd e = Err ErrNoContext) (settled q).
Proof.
  assert (forall q, context q = false -> fetched q = [] -> cache q = [] ->
            Forall (fun o => p_stage o = AwaitInit) (pending_ops q) ->
            Forall (fun e => snd e = Err ErrNoContext) (settled q) ->
            let q' := run q evs in
            fetched q' = [] /\ cache q' = [] /\
            Forall (fun e => snd e = Err ErrNoContext) (settled q')) as H.
  { induction evs as [|ev evs IH]; intros q Hx Hf Hc Hp Hs; [auto|].
    rewrite run_cons.
    destruct (step_without_context q ev Hx Hf Hc Hp Hs) as [Hx' [Hf' [Hc' [Hp' Hs']]]].
    apply IH; assumption. }
  apply H; simpl; auto.
Qed.

(** X4: [clearCache] empties the cache at once but cancels no load in
    flight: an activation already past its [fetch] still stores its
    buffer afterwards, so the cache holds that URL again. *)
Theorem clearCache_keeps_inflight (p : processor) (id : nat) (o : pending) (b : buf)
  (Ho : find_pending id AwaitDecode (pending_ops p) = Some o) :
  getCacheStats (clearCache p) = (0%nat, []) /\
  pending_ops (clearCache p) = pending_ops p /\
  getCacheStats (step (clearCache p) (ResumeDecode id (Some b))) = (1%nat, [p_url o]) /\
  settled (step (clearCache p) (ResumeDecode id (Some b))) = (settled p ++ [(id, Ok b)])%list.
Proof.
  split; [reflexivity | split; [reflexivity|]].
  simpl. rewrite Ho. unfold evict. simpl.
  destruct (Nat.leb (maxCacheSize p) 0); simpl; auto.
Qed.

Lemma clearCache_keeps_inflight_witness :
  let p := run (new_processor true)
             (load_ok_events 1 "a" 7%nat ++
              [LoadSound 2 "u"; ResumeInit 2; ResumeFetch 2 (FetchResponse true 200)])%list in
  find_pending 2 AwaitDecode (pending_ops p) =
    Some {| p_id := 2; p_url := "u"; p_stage := AwaitDecode |} /\
  getCacheStats (step (clearCache p) (ResumeDecode 2 (Some 8%nat))) = (1%nat, ["u"]).
Proof.
  intros p. split; [reflexivity|].
  exact (proj1 (proj2 (proj2 (clearCache_keeps_inflight p 2
           {| p_id := 2; p_url := "u"; p_stage := AwaitDecode |} 8%nat eq_refl)))).
Defined.




(** ** Playback rate, detune and the effects graph *)

Lemma Q2R_le_const (x y : Q) : x <= y -> (Q2R x <= Q2R y)%R.
Proof. apply Qle_Rle. Qed.

Lemma Rpower2_bounds (e : Q) : -2 <= e -> e <= 2 -> (/ 4 <= Rpower 2 (Q2R e) <= 4)%R.
Proof.
  intros H1 H2.
  assert (E2 : Rpower 2 2 = 4%R).
  { replace 2%R with (INR 2) at 2 by (simpl; ring).
    rewrite Rpower_pow by lra. simpl. ring. }
  apply Q2R_le_const in H1. apply Q2R_le_const in H2.
  replace (Q2R (-2)) with (Ropp 2) in H1 by (unfold Q2R; simpl; field).
  replace (Q2R 2) with 2%R in H2 by (unfold Q2R; simpl; field).
  split.
  - replace (/ 4)%R with (Rpower 2 (Ropp 2)) by (rewrite Rpower_Ropp, E2; reflexivity).
    apply Rle_Rpower; lra.
  - rewrite <- E2. apply Rle_Rpower; lra.
Qed.

(** X6: the rate [playWithPitch] leaves on the source is the clamped
    [playbackRate] option when one is given (it overrides the pitch), else
    [2^(clampedPitch/12)], else 1; it always lies in [[1/4, 4]]. The detune
    is set exactly when the option is given, clamped to [[-100, 100]]
    cents. *)
Theorem playWithPitch_rate_detune (now : Q) (ctx : bool) (load : result buf)
  (options : playback_options) (s : source)
  (Hs : playWithPitch now ctx load options = Ok s) :
  playbackRate_value s =
    match po_playbackRate options with
    | Some r => Q2R (clamp (1 # 4) 4 r)
    | None =>
        match po_pitch options with
        | Some p => Rpower 2 (Q2R (clamp (-24) 24 p / 12))
        | None => 1%R
        end
    end /\
  (/ 4 <= playbackRate_value s <= 4)%R /\
  (forall d, src_detune s = Some d -> -100 <= d <= 100) /\
  (src_detune s = None <-> po_detune options = None).
Proof.
  unfold playWithPitch in Hs. destruct ctx; [|discriminate].
  destruct load as [audioBuffer|e]; [|discriminate]. simpl in Hs.
  injection Hs as <-. unfold playbackRate_value. cbn [src_rate_writes src_detune].
  assert (Hrate : fold_left (fun _ w => rate_value w)
                    (pitch_write options ++
                     match po_playbackRate options with
                     | Some r => [RLit (clamp (1 # 4) 4 r)]
                     | None => []
                     end) 1%R =
          match po_playbackRate options with
          | Some r => Q2R (clamp (1 # 4) 4 r)
          | None =>
              match po_pitch options with
              | Some p => Rpower 2 (Q2R (clamp (-24) 24 p / 12))
              | None => 1%R
              end
          end).
  { unfold pitch_write. destruct (po_pitch options), (po_playbackRate options); reflexivity. }
  rewrite Hrate. split; [reflexivity | split; [|split]].
  - destruct (po_playbackRate options) as [r|].
    + destruct (clamp_bounds (1 # 4) 4 r) as [H1 H2]; [discriminate|].
      apply Q2R_le_const in H1. apply Q2R_le_const in H2.
      replace (Q2R (1 # 4)) with (/ 4)%R in H1 by (unfold Q2R; simpl; field).
      replace (Q2R 4) with 4%R in H2 by (unfold Q2R; simpl; field).
      lra.
    + destruct (po_pitch options) as [p|]; [|lra].
      destruct (clamp_bounds (-24) 24 p) as [H1 H2]; [discriminate|].
      apply Rpower2_bounds.
      * apply Qle_shift_div_l; [reflexivity|]. exact H1.
      * apply Qle_shift_div_r; [reflexivity|]. exact H2.
  - intros d Hd. destruct (po_detune options) as [x|]; [|discriminate].
    injection Hd as <-. apply clamp_bounds. discriminate.
  - destruct (po_detune options); simpl; split; congruence.
Qed.

Lemma playWithPitch_rate_detune_witness :
  let o := {| po_pitch := Some 100; po_volume := None; po_detune := Some (-300);
              po_playbackRate := Some 10 |} in
  exists s, playWithPitch 0 true (Ok 1%nat) o = Ok s /\
    playbackRate_value s = Q2R (clamp (1 # 4) 4 10).
Proof.
  intros o. eexists. split; [reflexivity|].
  exact (proj1 (playWithPitch_rate_detune 0 true (Ok 1%nat) o _ eq_refl)).
Defined.

Lemma Qlt_bool_lt (x y : Q) : Qlt_bool x y = true -> x < y.
Proof.
  unfold Qlt_bool. intros H. apply negb_true_iff in H.
  apply Qnot_le_lt. intros H1. apply Qle_bool_iff in H1. congruence.
Qed.

(** X7: [playWithEffects] ignores the [detune] and [playbackRate]
    options: only the pitch sets the rate. The chain it builds has at most
    a lowpass with cutoff in [[20, 20000)], then a highpass with cutoff in
    [(20, 20000]], then a delay of [(0, 5]] seconds with feedback 0.4 and
    mix 0.5, in that order. *)
Theorem playWithEffects_graph (now : Q) (ctx : bool) (load : result buf)
  (effects : effect_options) (options : playback_options) (s : source)
  (Hs : playWithEffects now ctx load effects options = Ok s) :
  src_detune s = None /\ src_rate_writes s = pitch_write options /\
  exists l h d,
    src_effects s = (l ++ h ++ d)%list /\
    Forall (fun n => exists f, n = Lowpass f /\ 20 <= f /\ f < 20000) l /\
    Forall (fun n => exists f, n = Highpass f /\ 20 < f /\ f <= 20000) h /\
    Forall (fun n => exists t, n = DelayMix t (2 # 5) (1 # 2) /\ 0 < t /\ t <= 5) d /\
    (List.length l <= 1 /\ List.length h <= 1 /\ List.length d <= 1)%nat.
Proof.
  unfold playWithEffects in Hs. destruct ctx; [|discriminate].
  destruct load as [audioBuffer|e]; [|discriminate]. simpl in Hs.
  injection Hs as <-. cbn [src_detune src_rate_writes src_effects].
  split; [reflexivity | split; [reflexivity|]]. unfold effect_chain.
  do 3 eexists. split; [reflexivity|].
  split; [|split; [|split]].
  - destruct (truthy (eo_lowpass effects)) as [x|]; [|constructor].
    destruct (Qlt_bool x 20000) eqn:E; constructor; [|constructor].
    apply Qlt_bool_lt in E.
    exists (Qmax 20 x). split; [reflexivity|]. split; [apply Q.le_max_l|].
    apply Q.max_lub_lt; [reflexivity|]. exact E.
  - destruct (truthy (eo_highpass effects)) as [x|]; [|constructor].
    destruct (Qlt_bool 20 x) eqn:E; constructor; [|constructor].
    apply Qlt_bool_lt in E.
    exists (Qmin 20000 x). split; [reflexivity|]. split; [|apply Q.le_min_l].
    apply Q.min_glb_lt; [reflexivity|]. exact E.
  - destruct (truthy (eo_delay effects)) as [x|]; [|constructor].
    destruct (Qlt_bool 0 x) eqn:E; constructor; [|constructor].
    apply Qlt_bool_lt in E.
    exists (Qmin 5 x). split; [reflexivity|]. split; [|apply Q.le_min_l].
    apply Q.min_glb_lt; [reflexivity|]. exact E.
  - repeat split;
      [destruct (truthy (eo_lowpass effects)) as [x|]; [destruct (Qlt_bool x 20000)|]
      |destruct (truthy (eo_highpass effects)) as [x|]; [destruct (Qlt_bool 20 x)|]
      |destruct (truthy (eo_delay effects)) as [x|]; [destruct (Qlt_bool 0 x)|]];
      simpl; lia.
Qed.

Lemma playWithEffects_graph_witness :
  let eff := {| eo_lowpass := Some 10; eo_highpass := Some 30000; eo_delay := Some 9 |} in
  exists s, playWithEffects 0 true (Ok 1%nat) eff no_options = Ok s /\ src_detune s = None.
Proof.
  intros eff. eexists. split; [reflexivity|].
  exact (proj1 (playWithEffects_graph 0 true (Ok 1%nat) eff no_options _ eq_refl)).
Defined.

(** ** Throttling *)

Lemma lastPlay_map_set (m : Throttle.times) k v k' :
  Throttle.lastPlay (Throttle.map_set m k v) k' =
  if String.eqb k' k then v else Throttle.lastPlay m k'.
Proof.
  unfold Throttle.lastPlay. induction m as [|[k0 v0] m IH]; simpl.
  - destruct (String.eqb k' k); reflexivity.
  - destruct (String.eqb k k0) eqn:E; simpl.
    + apply String.eqb_eq in E. subst k0. destruct (String.eqb k' k); reflexivity.
    + destruct (String.eqb k' k0) eqn:E'; [|exact IH].
      apply String.eqb_eq in E'. subst k0.
      destruct (String.eqb k' k) eqn:E''; [|reflexivity].
      apply String.eqb_eq in E''. subst. rewrite String.eqb_refl in E. discriminate.
Qed.

Lemma run_calls_app (m : Throttle.times) cs c :
  Throttle.run_calls m (cs ++ [c]) =
  let '(log, m1) := Throttle.run_calls m cs in
  let '(fired, m2) := Throttle.throttle_call (Throttle.c_delay c) (Throttle.c_key c)
                        (Throttle.c_now c) m1 in
  ((log ++ if fired then [c] else []), m2)%list.
Proof.
  revert m. induction cs as [|c0 cs IH]; intros m; simpl.
  - destruct (Throttle.throttle_call _ _ _ m) as [[|] m2]; reflexivity.
  - destruct (Throttle.throttle_call _ _ _ m) as [f1 m1]. rewrite IH.
    destruct (Throttle.run_calls m1 cs) as [log m2].
    destruct (Throttle.throttle_call _ _ _ m2) as [f2 m3].
    rewrite app_assoc. reflexivity.
Qed.

Lemma lastPlay_run_calls (m : Throttle.times) cs k :
  Throttle.lastPlay (snd (Throttle.run_calls m cs)) k =
  Throttle.last_fire m (fst (Throttle.run_calls m cs)) k.
Proof.
  unfold Throttle.last_fire. revert m.
  induction cs as [|c cs IH]; intros m; [reflexivity|]. simpl.
  unfold Throttle.throttle_call.
  destruct (Z.leb _ _).
  - specialize (IH (Throttle.map_set m (Throttle.c_key c) (Throttle.c_now c))).
    destruct (Throttle.run_calls _ cs) as [log m2] eqn:E. simpl in *.
    rewrite IH, lastPlay_map_set, String.eqb_sym. reflexivity.
  - specialize (IH m). destruct (Throttle.run_calls m cs) as [log m2]. exact IH.
Qed.

(** X8: a call of a [throttleSound] wrapper runs its sound exactly when the
    time since the last run recorded under its [soundKey] is at least its
    [minDelay]; calls that were throttled and calls under other keys do not
    count, while every wrapper sharing the key does, so two
    [throttledSounds.hover(...)] wrappers throttle each other. *)
Theorem throttle_fires_iff (m : Throttle.times) (cs : list Throttle.call)
  (c : Throttle.call) :
  fst (Throttle.run_calls m (cs ++ [c])) =
    (fst (Throttle.run_calls m cs) ++
     if Z.leb (Throttle.c_delay c)
          (Throttle.c_now c -
           Throttle.last_fire m (fst (Throttle.run_calls m cs)) (Throttle.c_key c))
     then [c] else [])%list /\
  fst (Throttle.run_calls [] [Throttle.hover 1 1000; Throttle.hover 2 1150;
                              Throttle.hover 2 1200]) =
    [Throttle.hover 1 1000; Throttle.hover 2 1200].
Proof.
  split; [|reflexivity].
  rewrite run_calls_app. pose proof (lastPlay_run_calls m cs (Throttle.c_key c)) as H.
  destruct (Throttle.run_calls m cs) as [log m1]. simpl in *. rewrite <- H.
  unfold Throttle.throttle_call. destruct (Z.leb _ _); reflexivity.
Qed.

(** X9: for any sequence of calls, the runs recorded under one key are
    spaced: each comes at least its wrapper's [minDelay] after the
    previous run under that key (the first, after the time stored before,
    0 for a key never played). *)
Theorem throttle_spacing (m : Throttle.times) (cs : list Throttle.call) (k : string) :
  Throttle.spaced (Throttle.lastPlay m k)
    (filter (fun c => String.eqb (Throttle.c_key c) k) (fst (Throttle.run_calls m cs)))
  = true /\
  Throttle.lastPlay [] k = 0%Z.
Proof.
  split; [|reflexivity].
  revert m. induction cs as [|c cs IH]; intros m; [reflexivity|]. simpl.
  unfold Throttle.throttle_call.
  destruct (Z.leb (Throttle.c_delay c) _) eqn:Hd.
  - specialize (IH (Throttle.map_set m (Throttle.c_key c) (Throttle.c_now c))).
    destruct (Throttle.run_calls _ cs) as [log m2]. simpl in *.
    rewrite lastPlay_map_set in IH.
    destruct (String.eqb (Throttle.c_key c) k) eqn:Ek; simpl.
    + rewrite String.eqb_sym, Ek in IH. apply String.eqb_eq in Ek. subst k.
      rewrite Hd, IH. reflexivity.
    + rewrite String.eqb_sym, Ek in IH. exact IH.
  - specialize (IH m). destruct (Throttle.run_calls m cs) as [log m2]. exact IH.
Qed.

(** ** The pack manager *)

Lemma assoc_mset {A} (m : list (string * A)) k v c :
  assoc c (Manager.mset m k v) = if String.eqb c k then Some v else assoc c m.
Proof.
  induction m as [|[k0 v0] m IH]; simpl.
  - destruct (String.eqb c k); reflexivity.
  - destruct (String.eqb k k0) eqn:E; simpl.
    + apply String.eqb_eq in E. subst k0. destruct (String.eqb c k); reflexivity.
    + rewrite IH. destruct (String.eqb c k0) eqn:E'; [|reflexivity].
      apply String.eqb_eq in E'. subst k0.
      destruct (String.eqb c k) eqn:E''; [|reflexivity].
      apply String.eqb_eq in E''. subst. rewrite String.eqb_refl in E. discriminate.
Qed.

Lemma has_mset {A} (m : list (string * A)) k v n :
  Manager.has m n = true -> Manager.has (Manager.mset m k v) n = true.
Proof.
  unfold Manager.has. rewrite assoc_mset. destruct (String.eqb n k); auto.
Qed.

Lemma name_truthy_nonempty (n : string) : n <> EmptyString -> Manager.name_truthy (Some n) = Some n.
Proof. destruct n; [contradiction|reflexivity]. Qed.

Lemma name_truthy_some (o : option string) n :
  Manager.name_truthy o = Some n -> o = Some n.
Proof. destruct o as [[|]|]; simpl; congruence. Qed.

Section ManagerProps.
Context {P : Type}.

(** Every name the manager would route to names a loaded pack. *)
Definition routes_loaded (mg : Manager.manager P) : Prop :=
  (forall n, Manager.activePack mg = Some n -> Manager.has (Manager.packs mg) n = true) /\
  (forall c n, assoc c (Manager.categoryOverrides mg) = Some n ->
               Manager.has (Manager.packs mg) n = true).

Lemma useMixed_fold_loaded (pk : list (string * P)) (ov acc : list (string * string)) :
  (forall c n, assoc c acc = Some n -> Manager.has pk n = true) ->
  forall c n,
  assoc c (fold_left (fun acc '(category, packName) =>
             if Manager.has pk packName then Manager.mset acc category packName else acc)
           ov acc) = Some n -> Manager.has pk n = true.
Proof.
  revert acc. induction ov as [|[c0 n0] ov IH]; intros acc Hacc; simpl; [exact Hacc|].
  apply IH. destruct (Manager.has pk n0) eqn:Hh; [|exact Hacc].
  intros c n. rewrite assoc_mset. destruct (String.eqb c c0); [congruence|apply Hacc].
Qed.

Lemma routes_loaded_apply (mg : Manager.manager P) (o : Manager.op) :
  routes_loaded mg -> routes_loaded (Manager.apply_op mg o).
Proof.
  intros [Ha Ho]. destruct o as [n pk|n|ov|]; simpl.
  - split; simpl.
    + intros n' H.
      destruct (Manager.name_truthy (Manager.activePack mg)); [apply has_mset, Ha, H|].
      injection H as <-. unfold Manager.has. rewrite assoc_mset, String.eqb_refl. reflexivity.
    + intros c n' H. apply has_mset, (Ho c), H.
  - unfold Manager.switchPack. destruct (Manager.has (Manager.packs mg) n) eqn:Hn;
      [|split; assumption].
    split; simpl; [congruence|discriminate].
  - split; simpl; [exact Ha|]. apply useMixed_fold_loaded. discriminate.
  - split; simpl; discriminate.
Qed.

Lemma routes_loaded_run (mg : Manager.manager P) (os : list Manager.op) :
  routes_loaded mg -> routes_loaded (Manager.run_ops mg os).
Proof.
  unfold Manager.run_ops. revert mg.
  induction os as [|o os IH]; intros mg H; simpl; [exact H|].
  apply IH, routes_loaded_apply, H.
Qed.

End ManagerProps.

(** X10: starting from a fresh manager, whatever sequence of [loadPack],
    [switchPack] (a throwing call changes nothing), [useMixed] and
    [dispose] calls is made, [play] and [createGradient] never hit the
    "Pack ... not found" branch: the active pack and every category override
    always name a loaded pack. *)
Theorem manager_never_pack_missing {P : Type} (os : list (@Manager.op P))
  (path n : string) :
  Manager.route_of (Manager.run_ops Manager.empty os) path <> @Manager.PackMissing P n.
Proof.
  destruct (routes_loaded_run Manager.empty os) as [Ha Ho].
  { split; simpl; discriminate. }
  unfold Manager.route_of.
  set (mg := Manager.run_ops Manager.empty os) in *.
  destruct (Manager.name_truthy
              (match Manager.name_truthy (assoc (Manager.category_of path)
                                            (Manager.categoryOverrides mg)) with
               | Some n0 => Some n0 | None => Manager.activePack mg end)) as [n'|] eqn:E;
    [|discriminate].
  apply name_truthy_some in E.
  assert (Hh : Manager.has (Manager.packs mg) n' = true).
  { destruct (Manager.name_truthy (assoc _ _)) as [n0|] eqn:E0.
    - apply name_truthy_some in E0. injection E as <-. apply (Ho _ _ E0).
    - apply Ha, E. }
  unfold Manager.has in Hh. destruct (assoc n' (Manager.packs mg)); discriminate.
Qed.

(** X11: for any manager, [switchPack(name)] throws exactly when no pack is
    loaded under [name]. Otherwise it makes [name] the active pack and
    clears the category overrides; every [play] path is then routed to that
    pack when [name] is non-empty, and to "No pack available" when it is
    the empty name. *)
Theorem switchPack_routes {P : Type} (mg : Manager.manager P) (name : string) :
  (Manager.switchPack name mg = None <-> assoc name (Manager.packs mg) = None) /\
  forall pack, assoc name (Manager.packs mg) = Some pack ->
    exists mg', Manager.switchPack name mg = Some mg' /\
      Manager.activePack mg' = Some name /\ Manager.categoryOverrides mg' = [] /\
      forall path, Manager.route_of mg' path =
        match name with
        | EmptyString => @Manager.NoPack P
        | _ => @Manager.Routed P name pack
        end.
Proof.
  unfold Manager.switchPack, Manager.has. split.
  - destruct (assoc name (Manager.packs mg)); split; congruence.
  - intros pack Hp. rewrite Hp.
    eexists; split; [reflexivity|]. split; [reflexivity|]. split; [reflexivity|].
    intros path. unfold Manager.route_of. simpl.
    destruct name as [|a s]; [reflexivity|]. simpl. rewrite Hp. reflexivity.
Qed.

(** X12: for any manager and any override map (its categories distinct,
    as the keys of a JS object are), [useMixed(overrides)] replaces all
    earlier overrides: a category given a loaded, non-empty pack name is
    routed to that pack whatever the active pack, and a category whose
    entries name no loaded pack, or that has no entry (as with
    [useMixed({})]), is routed as if no override had ever been set. *)
Theorem useMixed_routes {P : Type} (mg : Manager.manager P) (ov : list (string * string)) :
  (forall path n pack, NoDup (map fst ov) -> In (Manager.category_of path, n) ov ->
     assoc n (Manager.packs mg) = Some pack -> n <> EmptyString ->
     Manager.route_of (Manager.useMixed ov mg) path = @Manager.Routed P n pack) /\
  forall path', (forall n', In (Manager.category_of path', n') ov ->
                            assoc n' (Manager.packs mg) = None) ->
    Manager.route_of (Manager.useMixed ov mg) path' =
    Manager.route_of {| Manager.packs := Manager.packs mg;
                        Manager.activePack := Manager.activePack mg;
                        Manager.categoryOverrides := [] |} path'.
Proof.
  set (f := fun (acc : list (string * string)) '(category, packName) =>
              if Manager.has (Manager.packs mg) packName
              then Manager.mset acc category packName else acc).
  (* the fold keeps, for a category absent from the rest, what it had *)
  assert (Hkeep : forall ov' acc c, ~ In c (map fst ov') ->
            assoc c (fold_left f ov' acc) = assoc c acc).
  { induction ov' as [|[c0 n0] ov' IH]; intros acc c Hc; simpl; [reflexivity|].
    simpl in Hc. rewrite IH by tauto. unfold f.
    destruct (Manager.has _ n0); [|reflexivity].
    rewrite assoc_mset. destruct (String.eqb c c0) eqn:E; [|reflexivity].
    apply String.eqb_eq in E. subst. tauto. }
  assert (Hnone : forall ov' acc c,
            (forall n', In (c, n') ov' -> Manager.has (Manager.packs mg) n' = false) ->
            assoc c (fold_left f ov' acc) = assoc c acc).
  { induction ov' as [|[c0 n0] ov' IH]; intros acc c Hc; simpl; [reflexivity|].
    rewrite IH by (intros n' H; apply Hc; right; exact H). unfold f.
    destruct (Manager.has _ n0) eqn:Hh; [|reflexivity].
    rewrite assoc_mset. destruct (String.eqb c c0) eqn:E; [|reflexivity].
    apply String.eqb_eq in E. subst. rewrite (Hc n0 (or_introl eq_refl)) in Hh. discriminate. }
  split.
  - intros path n pack Hnd Hin Hp Hn.
    assert (Hov : assoc (Manager.category_of path) (Manager.categoryOverrides (Manager.useMixed ov mg))
                  = Some n).
    { simpl. fold f.
      assert (Hgen : forall ov' acc, NoDup (map fst ov') ->
                In (Manager.category_of path, n) ov' ->
                assoc (Manager.category_of path) (fold_left f ov' acc) = Some n).
      { induction ov' as [|[c0 n0] ov' IH]; intros acc Hd Hi; [destruct Hi|].
        simpl in Hd. inversion Hd as [|? ? Hnotin Hd']. subst. simpl.
        destruct Hi as [Heq|Hi].
        - injection Heq as -> ->. rewrite Hkeep by exact Hnotin. unfold f.
          unfold Manager.has at 1. rewrite Hp, assoc_mset, String.eqb_refl. reflexivity.
        - apply IH; assumption. }
      apply Hgen; assumption. }
    unfold Manager.route_of. rewrite Hov, (name_truthy_nonempty n Hn),
      (name_truthy_nonempty n Hn). simpl. rewrite Hp. reflexivity.
  - intros path' H. unfold Manager.route_of. simpl. fold f.
    rewrite Hnone; [reflexivity|].
    intros n' Hi. unfold Manager.has. rewrite (H n' Hi). reflexivity.
Qed.

(** X13: a pack loaded under the empty name [''] is never played through the
    manager ([''] is falsy, so [play] reports "No pack available"), and it
    does not keep the next [loadPack] from making its pack the active one. *)
Theorem manager_empty_name_unreachable {P : Type} (mg : Manager.manager P)
  (path n : string) (pk pk' : P) :
  Manager.route_of mg path <> @Manager.Routed P EmptyString pk /\
  Manager.route_of (Manager.loadPack EmptyString pk Manager.empty) path = @Manager.NoPack P /\
  Manager.activePack (Manager.loadPack n pk' (Manager.loadPack EmptyString pk Manager.empty))
    = Some n.
Proof.
  split; [|split; reflexivity].
  unfold Manager.route_of.
  destruct (Manager.name_truthy _) as [n'|] eqn:E; [|discriminate].
  destruct (assoc n' (Manager.packs mg)); [|discriminate].
  intros H. injection H as Hn' _. subst n'.
  destruct (match _ with Some n0 => _ | None => _ end) as [[|]|]; discriminate.
Qed.

(** ** Variants and preloading ([SoundPack.playVariant], [preload]) *)

Lemma floor_scaled_bounds (r : Q) (len : nat) :
  0 <= r -> r < 1 -> (0 < len)%nat ->
  (0 <= Qfloor (r * PackSrc.nat_Q len) < Z.of_nat len)%Z.
Proof.
  intros H0 H1 Hl. unfold PackSrc.nat_Q.
  assert (HL : 0 < inject_Z (Z.of_nat len)).
  { unfold Qlt. simpl. lia. }
  split.
  - change 0%Z with (Qfloor 0). apply Qfloor_resp_le.
    apply Qmult_le_0_compat; [exact H0|apply Qlt_le_weak, HL].
  - rewrite Zlt_Qlt. eapply Qle_lt_trans; [apply Qfloor_le|].
    apply Qlt_le_trans with (1 * inject_Z (Z.of_nat len)).
    + apply Qmult_lt_r; assumption.
    + rewrite Qmult_1_l. apply Qle_refl.
Qed.

(** X14: [playVariant] on a variant entry, with [Math.random()] in [0, 1) and
    a non-empty variant list, plays one member of that list (the [default]
    file when [variants] is left out) with the entry's pitch and volume under
    the caller's options, and passes a failure through: unlike [play] it has
    no fallback. *)
Theorem playVariant_picks_member (m : manifest) (basePath : string)
  (support : format_support) (now : Q) (ctx : bool) (load : string -> result buf)
  (rnd : Q) (path : string) (options : playback_options) (v : sound_variant)
  (Hv : lookup_sound m path = Some (SEVariant v))
  (Hr0 : 0 <= rnd) (Hr1 : rnd < 1)
  (Hne : default [sv_default v] (sv_variants v) <> []) :
  (exists file, In file (default [sv_default v] (sv_variants v)) /\
    PackSrcOps.playVariant m basePath support now ctx load rnd path options =
    PackSrcOps.VariantPlayed
      match playWithPitch now ctx (load (PackSrcOps.url_of m basePath support file))
              (merge_options {| po_pitch := sv_pitch v; po_volume := sv_volume v;
                                po_detune := None; po_playbackRate := None |} options) with
      | Ok s => Ok (PackSrc.Started s)
      | Err e => Err e
      end).
Proof.
  unfold PackSrcOps.playVariant. rewrite Hv.
    set (variants := default [sv_default v] (sv_variants v)) in *.
    assert (Hl : (0 < List.length variants)%nat).
    { destruct variants; [contradiction|simpl; lia]. }
    destruct (floor_scaled_bounds rnd (List.length variants) Hr0 Hr1 Hl) as [Hi0 Hi1].
    unfold PackSrcOps.pick_index.
    destruct (Z.ltb_spec (Qfloor (rnd * PackSrc.nat_Q (List.length variants))) 0); [lia|].
    destruct (nth_error variants _) as [file|] eqn:Hn.
    + exists file. split; [eapply nth_error_In, Hn|reflexivity].
    + apply nth_error_None in Hn. lia.
Qed.

Lemma playVariant_picks_member_witness :
  let v := {| sv_default := "c1.mp3"; sv_variants := Some ["c1.mp3"; "c2.mp3"];
              sv_pitch := Some 1; sv_volume := None |} in
  let support := fun _ : audio_format => true in
  let load := fun _ : string => Err (ErrNotFound "net") in
  lookup_sound variant_manifest "ui.click" = Some (SEVariant v) /\
  (exists file, In file (default [sv_default v] (sv_variants v)) /\
    PackSrcOps.playVariant variant_manifest "/s" support 0 true load (1 # 2) "ui.click"
      no_options =
    PackSrcOps.VariantPlayed
      match playWithPitch 0 true (load (PackSrcOps.url_of variant_manifest "/s" support file))
              (merge_options {| po_pitch := sv_pitch v; po_volume := sv_volume v;
                                po_detune := None; po_playbackRate := None |} no_options) with
      | Ok s => Ok (PackSrc.Started s)
      | Err e => Err e
      end).
Proof.
  intros v support load.
  assert (Hv : lookup_sound variant_manifest "ui.click" = Some (SEVariant v)) by reflexivity.
  split; [exact Hv|].
  apply (playVariant_picks_member variant_manifest "/s" support 0 true load (1 # 2)
           "ui.click" no_options v Hv); [discriminate|reflexivity|discriminate].
Defined.

(** X15: a variant entry whose [variants] is an empty array (truthy in JS)
    makes every [playVariant] of its path fail with the [TypeError] of
    [getBestFormat(undefined)], whatever [Math.random()] returns. *)
Theorem playVariant_empty_variants (m : manifest) (basePath : string)
  (support : format_support) (now : Q) (ctx : bool) (load : string -> result buf)
  (path : string) (options : playback_options) (v : sound_variant)
  (Hv : lookup_sound m path = Some (SEVariant v)) (He : sv_variants v = Some []) (rnd : Q) :
  PackSrcOps.playVariant m basePath support now ctx load rnd path options =
  PackSrcOps.VariantTypeError.
Proof.
  unfold PackSrcOps.playVariant. rewrite Hv, He. simpl.
  unfold PackSrcOps.pick_index. destruct rnd as [n d].
  unfold Qfloor, Qmult, PackSrc.nat_Q. simpl. rewrite Z.mul_0_r. reflexivity.
Qed.

Lemma playVariant_empty_variants_witness :
  let v := {| sv_default := "c1.mp3"; sv_variants := Some [];
              sv_pitch := None; sv_volume := None |} in
  let m := {| m_name := "pack"; m_sounds := [("ui", [("click", SEVariant v)])];
              m_formats := None |} in
  lookup_sound m "ui.click" = Some (SEVariant v) /\ sv_variants v = Some [] /\
  PackSrcOps.playVariant m "/s" (fun _ => true) 0 true (fun _ => Err (ErrNotFound "x"))
    (9 # 10) "ui.click" no_options = PackSrcOps.VariantTypeError.
Proof.
  intros v m.
  assert (Hv : lookup_sound m "ui.click" = Some (SEVariant v)) by reflexivity.
  assert (He : sv_variants v = Some []) by reflexivity.
  split; [exact Hv|]. split; [exact He|].
  exact (playVariant_empty_variants m "/s" (fun _ => true) 0 true (fun _ => Err (ErrNotFound "x"))
           "ui.click" no_options v Hv He (9 # 10)).
Defined.

Lemma assoc_In {A} (k : string) (l : list (string * A)) v :
  assoc k l = Some v -> In (k, v) l.
Proof.
  induction l as [|[k' v'] l IH]; simpl; [discriminate|].
  destruct (String.eqb k k') eqn:E; intros H; [|right; auto].
  apply String.eqb_eq in E. injection H as <-. subst. left. reflexivity.
Qed.

Lemma assoc_In_keys {A} (k : string) (l : list (string * A)) v :
  assoc k l = Some v -> In k (map fst l).
Proof. intros H. apply (in_map fst _ _ (assoc_In k l v H)). Qed.

(** X16: [preload()] with no categories loads the URL [play(path)] would
    fetch for every path it resolves: the file of a plain entry, or the
    [default] file of a variant entry (other variants are not preloaded).
    [preload(categories)] skips every category the manifest lacks, wherever
    it stands in the list: it loads what it loads for the list with those
    categories removed. *)
Theorem preload_covers_play (m : manifest) (basePath : string) (support : format_support)
  (path file : string) (d : playback_options)
  (Hr : resolveSound m path = Ok (file, d)) :
  In (basePath ++ "/" ++ m_name m ++ "/" ++ PackSrc.getBestFormat m support file)
     (PackSrcOps.preload_urls m basePath support None) /\
  forall cats,
    PackSrcOps.preload_urls m basePath support (Some cats) =
    PackSrcOps.preload_urls m basePath support
      (Some (filter (fun c => match assoc c (m_sounds m) with
                              | Some _ => true | None => false end) cats)).
Proof.
  split.
  - unfold resolveSound, lookup_sound in Hr. unfold PackSrcOps.preload_urls. simpl.
    destruct (path_parts path) as [category action].
    destruct (assoc category (m_sounds m)) as [actions|] eqn:Hc; [|discriminate].
    assert (He : exists e, assoc action actions = Some e /\ PackSrcOps.entry_file e = file).
    { destruct (assoc action actions) as [[f|w]|]; try discriminate.
      - destruct f; [discriminate|]. injection Hr as <- _. eexists; split; reflexivity.
      - injection Hr as <- _. eexists; split; reflexivity. }
    destruct He as [e [Ha Hf]].
    apply in_flat_map. exists category. split; [apply (assoc_In_keys _ _ _ Hc)|].
    rewrite Hc. apply in_map_iff. exists (action, e). split; [simpl; rewrite Hf; reflexivity|].
    apply assoc_In, Ha.
  - intros cats. unfold PackSrcOps.preload_urls. simpl.
    induction cats as [|c cats IH]; [reflexivity|]. simpl.
    destruct (assoc c (m_sounds m)) eqn:Hc; simpl; rewrite ?Hc, IH; reflexivity.
Qed.

Lemma preload_covers_play_witness :
  resolveSound variant_manifest "ui.click" =
    Ok ("c1.mp3", {| po_pitch := Some 1; po_volume := None; po_detune := None;
                     po_playbackRate := None |}) /\
  (In ("/s" ++ "/" ++ m_name variant_manifest ++ "/" ++
         PackSrc.getBestFormat variant_manifest (fun _ => true) "c1.mp3")
     (PackSrcOps.preload_urls variant_manifest "/s" (fun _ => true) None) /\
  forall cats,
    PackSrcOps.preload_urls variant_manifest "/s" (fun _ => true) (Some cats) =
    PackSrcOps.preload_urls variant_manifest "/s" (fun _ => true)
      (Some (filter (fun c => match assoc c (m_sounds variant_manifest) with
                              | Some _ => true | None => false end) cats))).
Proof.
  assert (Hr : resolveSound variant_manifest "ui.click" =
    Ok ("c1.mp3", {| po_pitch := Some 1; po_volume := None; po_detune := None;
                     po_playbackRate := None |})) by reflexivity.
  split; [exact Hr|].
  exact (preload_covers_play variant_manifest "/s" (fun _ => true) "ui.click" "c1.mp3" _ Hr).
Defined.

(** ** Lazy loading in the bundled [SoundPack] *)

Lemma assoc_filter_key {A} (l : list (string * A)) (k : string) :
  assoc k (filter (fun e => negb (String.eqb (fst e) k)) l) = None.
Proof.
  induction l as [|[k' v] l IH]; simpl; [reflexivity|].
  destruct (String.eqb k' k) eqn:E; simpl; [exact IH|].
  rewrite String.eqb_sym, E. exact IH.
Qed.

(** No load promise for [url] is pending in a lazy pack that has not
    loaded [url]. *)
Definition promise_absent (url : string) (pk : PackBundle.pack) : Prop :=
  PackBundle.lazyLoad pk = true /\
  existsb (String.eqb url) (PackBundle.loadedSounds pk) = false /\
  assoc url (PackBundle.loadingPromises pk) = None.

Lemma promise_absent_run m basePath support url pk es :
  promise_absent url pk ->
  Forall (fun e => match e with
                   | PackBundle.PkStep _ => True
                   | PackBundle.PkPlay _ => False
                   | PackBundle.PkSettle u _ => u <> url
                   end) es ->
  promise_absent url (PackBundle.pack_run m basePath support pk es).
Proof.
  unfold PackBundle.pack_run. revert pk.
  induction es as [|e es IH]; intros pk H Hes; simpl; [exact H|].
  inversion Hes as [|? ? He Hes']. subst. apply IH; [|exact Hes'].
  destruct H as [Hl [Hn Ha]]. destruct e as [ev|path|u r]; simpl.
  - repeat split; assumption.
  - contradiction.
  - assert (Hu : url <> u) by (intros ->; apply He; reflexivity).
    unfold PackBundle.on_settled. repeat split; simpl.
    + exact Hl.
    + destruct r; [apply existsb_app_single_false; assumption|exact Hn].
    + rewrite assoc_filter_other by exact Hu. exact Ha.
Qed.

Lemma loaded_run m basePath support url pk es :
  existsb (String.eqb url) (PackBundle.loadedSounds pk) = true ->
  existsb (String.eqb url)
    (PackBundle.loadedSounds (PackBundle.pack_run m basePath support pk es)) = true.
Proof.
  unfold PackBundle.pack_run. revert pk.
  induction es as [|e es IH]; intros pk H; simpl; [exact H|].
  apply IH. destruct e as [ev|path|u r]; simpl.
  - exact H.
  - unfold PackBundle.play_start.
    destruct (resolveSound m path) as [[file d]|e0]; [|exact H].
    destruct (_ && _); [|exact H].
    lazymatch goal with
    | |- context [assoc ?u (PackBundle.loadingPromises pk)] =>
        destruct (assoc u (PackBundle.loadingPromises pk))
    end; exact H.
  - destruct r; simpl; [rewrite existsb_app, H; reflexivity|exact H].
Qed.

(** X17: in the bundled [SoundPack], when the load promise a [play] awaits
    rejects, whatever ran before (processor steps, other plays, other
    settlements), the promise is dropped without marking the sound loaded:
    after further processor steps and settlements of other URLs, the next
    [play] of the path starts a fresh [loadSound] under a new promise. When
    it resolves instead, every later [play] of the path, after any events
    at all, goes straight to [playWithPitch]. *)
Theorem bundle_load_retry (m : manifest) (basePath : string) (support : format_support)
  (pk pk1 : PackBundle.pack) (path url : string) (id : nat) (e : err) (b : buf)
  (evs evs' evs'' : list PackBundle.pack_event)
  (Hs : PackBundle.play_start m basePath support pk path = (pk1, PackBundle.WaitLoad id url))
  (Hns : Forall (fun ev => forall r, ev <> PackBundle.PkSettle url r) evs)
  (Hq : Forall (fun ev => match ev with
                          | PackBundle.PkStep _ => True
                          | PackBundle.PkPlay _ => False
                          | PackBundle.PkSettle u _ => u <> url
                          end) evs') :
  let pk2 := PackBundle.pack_run m basePath support pk1 evs in
  (let pk3 := PackBundle.pack_run m basePath support
                (PackBundle.on_settled pk2 url (Err e)) evs' in
   PackBundle.play_start m basePath support pk3 path =
     ({| PackBundle.pk_proc :=
           step (PackBundle.pk_proc pk3) (LoadSound (PackBundle.next_id pk3) url);
         PackBundle.lazyLoad := PackBundle.lazyLoad pk3;
         PackBundle.loadedSounds := PackBundle.loadedSounds pk3;
         PackBundle.loadingPromises :=
           (PackBundle.loadingPromises pk3 ++ [(url, PackBundle.next_id pk3)])%list;
         PackBundle.next_id := S (PackBundle.next_id pk3) |},
      PackBundle.WaitLoad (PackBundle.next_id pk3) url)) /\
  (let pk3 := PackBundle.pack_run m basePath support
                (PackBundle.on_settled pk2 url (Ok b)) evs'' in
   PackBundle.play_start m basePath support pk3 path = (pk3, PackBundle.NoWait url)).
Proof.
  destruct (play_start_waitload _ _ _ _ _ _ _ _ Hs) as [[file [d [Hr Hu]]] [Hp _]].
  intros pk2.
  destruct (promise_pending_run m basePath support url id pk1 evs Hp Hns) as [Hl [Hn Ha]].
  fold pk2 in Hl, Hn, Ha.
  split.
  - intros pk3.
    assert (Hab : promise_absent url pk3).
    { apply promise_absent_run; [|exact Hq].
      unfold PackBundle.on_settled. repeat split; simpl; [exact Hl|exact Hn|].
      apply assoc_filter_key. }
    destruct Hab as [Hl3 [Hn3 Ha3]].
    unfold PackBundle.play_start. rewrite Hr. cbv beta iota zeta.
    rewrite <- Hu, Hl3, Hn3, Ha3. reflexivity.
  - intros pk3.
    assert (Hld : existsb (String.eqb url) (PackBundle.loadedSounds pk3) = true).
    { apply loaded_run. simpl. rewrite existsb_app. simpl.
      rewrite String.eqb_refl, orb_true_r. reflexivity. }
    unfold PackBundle.play_start. rewrite Hr. cbv beta iota zeta.
    rewrite <- Hu, Hld, andb_false_r. reflexivity.
Qed.

Lemma bundle_load_retry_witness :
  let pk := {| PackBundle.pk_proc := new_processor true; PackBundle.lazyLoad := true;
               PackBundle.loadedSounds := []; PackBundle.loadingPromises := [];
               PackBundle.next_id := 0 |} in
  let support := fun _ : audio_format => true in
  let pk1 := fst (PackBundle.play_start variant_manifest "/s" support pk "ui.click") in
  let url := "/s/pack/c1.ogg" in
  let evs := [PackBundle.PkStep (ResumeInit 0); PackBundle.PkPlay "ui.click"] in
  let evs' := [PackBundle.PkStep (ResumeFetch 0 (FetchResponse false 404))] in
  let evs'' := [PackBundle.PkPlay "ui.click"; PackBundle.PkSettle url (Err ErrFetch)] in
  PackBundle.play_start variant_manifest "/s" support pk "ui.click" =
    (pk1, PackBundle.WaitLoad 0 url) /\
  Forall (fun ev => forall r, ev <> PackBundle.PkSettle url r) evs /\
  Forall (fun ev => match ev with
                    | PackBundle.PkStep _ => True
                    | PackBundle.PkPlay _ => False
                    | PackBundle.PkSettle u _ => u <> url
                    end) evs' /\
  (let pk2 := PackBundle.pack_run variant_manifest "/s" support pk1 evs in
  (let pk3 := PackBundle.pack_run variant_manifest "/s" support
                (PackBundle.on_settled pk2 url (Err ErrFetch)) evs' in
   PackBundle.play_start variant_manifest "/s" support pk3 "ui.click" =
     ({| PackBundle.pk_proc :=
           step (PackBundle.pk_proc pk3) (LoadSound (PackBundle.next_id pk3) url);
         PackBundle.lazyLoad := PackBundle.lazyLoad pk3;
         PackBundle.loadedSounds := PackBundle.loadedSounds pk3;
         PackBundle.loadingPromises :=
           (PackBundle.loadingPromises pk3 ++ [(url, PackBundle.next_id pk3)])%list;
         PackBundle.next_id := S (PackBundle.next_id pk3) |},
      PackBundle.WaitLoad (PackBundle.next_id pk3) url)) /\
  (let pk3 := PackBundle.pack_run variant_manifest "/s" support
                (PackBundle.on_settled pk2 url (Ok 7%nat)) evs'' in
   PackBundle.play_start variant_manifest "/s" support pk3 "ui.click" =
     (pk3, PackBundle.NoWait url))).
Proof.
  intros pk support pk1 url evs evs' evs''.
  assert (Hs : PackBundle.play_start variant_manifest "/s" support pk "ui.click" =
               (pk1, PackBundle.WaitLoad 0 url)) by reflexivity.
  assert (Hns : Forall (fun ev => forall r, ev <> PackBundle.PkSettle url r) evs).
  { repeat constructor; intros r H; discriminate H. }
  assert (Hq : Forall (fun ev => match ev with
                                 | PackBundle.PkStep _ => True
                                 | PackBundle.PkPlay _ => False
                                 | PackBundle.PkSettle u _ => u <> url
                                 end) evs') by (repeat constructor).
  split; [exact Hs|]. split; [exact Hns|]. split; [exact Hq|].
  exact (bundle_load_retry variant_manifest "/s" support pk pk1 "ui.click" url 0 ErrFetch 7%nat
           evs evs' evs'' Hs Hns Hq).
Defined.

(** ** The [JuicySounds] front end *)

Lemma random_pitch_bounds (rnd : Q) :
  0 <= rnd -> rnd < 1 ->
  19 # 20 <= 1 + (rnd * 2 - 1) * (5 # 100) /\ 1 + (rnd * 2 - 1) * (5 # 100) < 21 # 20.
Proof.
  intros H0 H1. apply Qle_Rle in H0. apply Qlt_Rlt in H1.
  split; [apply Rle_Qle|apply Rlt_Qlt];
    rewrite Q2R_plus, Q2R_mult, Q2R_minus, Q2R_mult in *;
    set (r := Q2R rnd) in *; unfold Q2R in *; simpl in *; lra.
Qed.

(** X18: [JuicySounds.play] does nothing while muted. Otherwise it passes the
    caller's volume (1 when left out) times the global volume, which then
    also overrides any volume the manifest gives the sound; detune and
    playback rate go through unchanged; and with [randomPitch] and no
    (or a zero) pitch it picks a pitch in [0.95, 1.05), else the caller's
    pitch is kept. *)
Theorem juicy_play_options (st : Juicy.state) (rnd : Q) (o : playback_options)
  (randomPitch : bool) (Hm : Juicy.isMuted st = false) (Hr0 : 0 <= rnd) (Hr1 : rnd < 1) :
  (forall rnd' o' rp', Juicy.play_options (Juicy.mute st) rnd' o' rp' = None) /\
  exists o', Juicy.play_options st rnd o randomPitch = Some o' /\
    po_volume o' = Some (default 1 (po_volume o) * Juicy.globalVolume st) /\
    (forall d, po_volume (merge_options d o') = po_volume o') /\
    po_detune o' = po_detune o /\ po_playbackRate o' = po_playbackRate o /\
    match randomPitch, truthy (po_pitch o) with
    | true, None => exists p, po_pitch o' = Some p /\ 19 # 20 <= p /\ p < 21 # 20
    | _, _ => po_pitch o' = po_pitch o
    end.
Proof.
  split; [reflexivity|].
  unfold Juicy.play_options. rewrite Hm.
  eexists; split; [reflexivity|]. simpl.
  split; [reflexivity|]. split; [reflexivity|]. split; [reflexivity|]. split; [reflexivity|].
  destruct randomPitch, (truthy (po_pitch o)); simpl; try reflexivity.
  eexists; split; [reflexivity|]. apply random_pitch_bounds; assumption.
Qed.

Lemma juicy_play_options_witness :
  let st := Juicy.init None None None in
  let o := {| po_pitch := None; po_volume := Some (3 # 10); po_detune := None;
              po_playbackRate := None |} in
  Juicy.isMuted st = false /\ 0 <= 1 # 2 /\ 1 # 2 < 1 /\
  ((forall rnd' o' rp', Juicy.play_options (Juicy.mute st) rnd' o' rp' = None) /\
  exists o', Juicy.play_options st (1 # 2) o true = Some o' /\
    po_volume o' = Some (default 1 (po_volume o) * Juicy.globalVolume st) /\
    (forall d, po_volume (merge_options d o') = po_volume o') /\
    po_detune o' = po_detune o /\ po_playbackRate o' = po_playbackRate o /\
    match true, truthy (po_pitch o) with
    | true, None => exists p, po_pitch o' = Some p /\ 19 # 20 <= p /\ p < 21 # 20
    | _, _ => po_pitch o' = po_pitch o
    end).
Proof.
  intros st o.
  assert (Hm : Juicy.isMuted st = false) by reflexivity.
  assert (H0 : 0 <= 1 # 2) by (unfold Qle; simpl; lia).
  assert (H1 : 1 # 2 < 1) by (unfold Qlt; simpl; lia).
  split; [exact Hm|]. split; [exact H0|]. split; [exact H1|].
  exact (juicy_play_options st (1 # 2) o true Hm H0 H1).
Defined.

Lemma freq_index_pos (index total : Q) (len : nat) :
  0 < total -> 0 <= index -> (0 < len)%nat ->
  (0 <= Qfloor (index / total * PackSrc.nat_Q len))%Z /\
  Juicy.freq_index index total len =
    Some (Z.to_nat (Z.min (Qfloor (index / total * PackSrc.nat_Q len)) (Z.of_nat len - 1))).
Proof.
  intros Ht Hi Hl.
  assert (Hz : (0 <= Qfloor (index / total * PackSrc.nat_Q len))%Z).
  { change 0%Z with (Qfloor 0). apply Qfloor_resp_le.
    apply Qmult_le_0_compat; [|unfold PackSrc.nat_Q, Qle; simpl; lia].
    apply Qle_shift_div_l; [exact Ht|]. rewrite Qmult_0_l. exact Hi. }
  split; [exact Hz|].
  unfold Juicy.freq_index.
  destruct (Qeq_bool total 0) eqn:E.
  - apply Qeq_bool_eq in E. rewrite E in Ht. discriminate.
  - destruct (Z.ltb_spec (Z.min (Qfloor (index / total * PackSrc.nat_Q len)) (Z.of_nat len - 1)) 0);
      [lia|reflexivity].
Qed.

Lemma nth_error_last {A} (l : list A) (d : A) :
  l <> [] -> nth_error l (List.length l - 1) = Some (last l d).
Proof.
  intros Hl. induction l as [|x l IH]; [contradiction|].
  destruct l as [|y l]; [reflexivity|].
  specialize (IH ltac:(discriminate)). simpl in IH |- *.
  rewrite Nat.sub_0_r in *. exact IH.
Qed.

(** X20: with a positive [total], an unmuted instance with synthesis on
    whose frequency list is not empty maps every index [>= 0] to a frequency
    of its list and plays a 150 ms tone; a larger index never gives a lower
    position in the list, and every index at or past [total] gives the last
    frequency. With an empty list (as [setCustomGradient([])] leaves it)
    and with a negative index [setValueAtTime(undefined)] throws; muted
    nothing is played. *)
Theorem gradient_sound_index (st : Juicy.state) (now i j total : Q)
  (Hm : Juicy.isMuted st = false) (He : Juicy.synthetic_enabled st = true)
  (Ht : 0 < total) (Hi : 0 <= i) (Hij : i <= j) :
  (Juicy.gradientFrequencies st <> [] ->
   (exists a b, Juicy.freq_index i total (List.length (Juicy.gradientFrequencies st)) = Some a /\
      Juicy.freq_index j total (List.length (Juicy.gradientFrequencies st)) = Some b /\
      (a <= b < List.length (Juicy.gradientFrequencies st))%nat) /\
   (exists f, In f (Juicy.gradientFrequencies st) /\
      Juicy.playGradientSound st now j total =
      Juicy.GradientTone f
        [SetValueAtTime 0 now;
         LinearRampTo ((2 # 10) * Juicy.globalVolume st) (now + (1 # 100));
         LinearRampTo ((15 # 100) * Juicy.globalVolume st) (now + (5 # 100));
         LinearRampTo ((15 # 100) * Juicy.globalVolume st) (now + (1 # 10));
         LinearRampTo 0 (now + (15 # 100))]
        now (now + (15 # 100))) /\
   (forall k, total <= k ->
      Juicy.freq_index k total (List.length (Juicy.gradientFrequencies st)) =
        Some (List.length (Juicy.gradientFrequencies st) - 1)%nat /\
      Juicy.playGradientSound st now k total =
      Juicy.GradientTone (last (Juicy.gradientFrequencies st) 0)
        [SetValueAtTime 0 now;
         LinearRampTo ((2 # 10) * Juicy.globalVolume st) (now + (1 # 100));
         LinearRampTo ((15 # 100) * Juicy.globalVolume st) (now + (5 # 100));
         LinearRampTo ((15 # 100) * Juicy.globalVolume st) (now + (1 # 10));
         LinearRampTo 0 (now + (15 # 100))]
        now (now + (15 # 100)))) /\
  (Juicy.gradientFrequencies st = [] ->
   forall k, Juicy.playGradientSound st now k total = Juicy.GradientBadIndex) /\
  (forall k, k < 0 -> Juicy.playGradientSound st now k total = Juicy.GradientBadIndex) /\
  Juicy.playGradientSound (Juicy.mute st) now j total = Juicy.GradientSilent.
Proof.
  set (len := List.length (Juicy.gradientFrequencies st)).
  assert (Hj : 0 <= j) by (eapply Qle_trans; eassumption).
  assert (Htz : Qeq_bool total 0 = false).
  { destruct (Qeq_bool total 0) eqn:E; [|reflexivity].
    apply Qeq_bool_eq in E. rewrite E in Ht. discriminate. }
  split; [intros Hne|split; [|split]].
  - assert (Hl : (0 < len)%nat) by (unfold len; destruct (Juicy.gradientFrequencies st);
                                     [contradiction|simpl; lia]).
    destruct (freq_index_pos i total len Ht Hi Hl) as [Hzi Hfi].
    destruct (freq_index_pos j total len Ht Hj Hl) as [Hzj Hfj].
    assert (Hmono : (Qfloor (i / total * PackSrc.nat_Q len) <=
                     Qfloor (j / total * PackSrc.nat_Q len))%Z).
    { apply Qfloor_resp_le. apply Qmult_le_compat_r; [|unfold PackSrc.nat_Q, Qle; simpl; lia].
      unfold Qdiv. apply Qmult_le_compat_r; [exact Hij|].
      apply Qlt_le_weak, Qinv_lt_0_compat, Ht. }
    split; [|split].
    + eexists; eexists. split; [exact Hfi|]. split; [exact Hfj|]. lia.
    + unfold Juicy.playGradientSound. rewrite Hm, He. simpl. fold len. rewrite Hfj.
      destruct (nth_error (Juicy.gradientFrequencies st) _) as [f|] eqn:Hn.
      * exists f. split; [eapply nth_error_In, Hn|reflexivity].
      * apply nth_error_None in Hn. fold len in Hn. lia.
    + intros k Hk.
      assert (Hge : (Z.of_nat len <= Qfloor (k / total * PackSrc.nat_Q len))%Z).
      { rewrite <- (Qfloor_Z (Z.of_nat len)). apply Qfloor_resp_le.
        change (inject_Z (Z.of_nat len)) with (PackSrc.nat_Q len).
        rewrite <- (Qmult_1_l (PackSrc.nat_Q len)) at 1.
        apply Qmult_le_compat_r; [|unfold PackSrc.nat_Q, Qle; simpl; lia].
        apply Qle_shift_div_l; [exact Ht|]. rewrite Qmult_1_l. exact Hk. }
      assert (Hfk : Juicy.freq_index k total len = Some (len - 1)%nat).
      { unfold Juicy.freq_index. rewrite Htz.
        rewrite Z.min_r by lia.
        destruct (Z.ltb_spec (Z.of_nat len - 1) 0); [lia|].
        f_equal. lia. }
      split; [exact Hfk|].
      unfold Juicy.playGradientSound. rewrite Hm, He. simpl. fold len. rewrite Hfk.
      unfold len. rewrite (nth_error_last _ 0 Hne). reflexivity.
  - intros Hnil k. unfold Juicy.playGradientSound. rewrite Hm, He. simpl.
    rewrite Hnil. unfold Juicy.freq_index. rewrite Htz.
    simpl List.length.
    destruct (Z.ltb_spec (Z.min (Qfloor (k / total * PackSrc.nat_Q 0)) (Z.of_nat 0 - 1)) 0);
      [reflexivity|lia].
  - intros k Hk. unfold Juicy.playGradientSound. rewrite Hm, He. simpl. fold len.
    unfold Juicy.freq_index. rewrite Htz.
    destruct (Nat.eq_0_gt_0_cases len) as [H0|Hl].
    { destruct (Z.ltb_spec (Z.min (Qfloor (k / total * PackSrc.nat_Q len)) (Z.of_nat len - 1)) 0);
        [reflexivity|lia]. }
    assert (Hneg : (Qfloor (k / total * PackSrc.nat_Q len) < 0)%Z).
    { rewrite Zlt_Qlt. eapply Qle_lt_trans; [apply Qfloor_le|].
      change (inject_Z 0) with 0.
      apply Qlt_le_trans with (0 * PackSrc.nat_Q len); [|rewrite Qmult_0_l; apply Qle_refl].
      apply Qmult_lt_r; [unfold PackSrc.nat_Q, Qlt; simpl; lia|].
      apply Qlt_shift_div_r; [exact Ht|]. rewrite Qmult_0_l. exact Hk. }
    destruct (Z.ltb_spec (Z.min (Qfloor (k / total * PackSrc.nat_Q len)) (Z.of_nat len - 1)) 0);
      [reflexivity|lia].
  - reflexivity.
Qed.

Lemma gradient_sound_index_witness :
  let st := Juicy.init None None None in
  Juicy.isMuted st = false /\ Juicy.synthetic_enabled st = true /\ 0 < 10 /\ 0 <= 2 /\
  2 <= 12 /\
  ((Juicy.gradientFrequencies st <> [] ->
   (exists a b, Juicy.freq_index 2 10 (List.length (Juicy.gradientFrequencies st)) = Some a /\
      Juicy.freq_index 12 10 (List.length (Juicy.gradientFrequencies st)) = Some b /\
      (a <= b < List.length (Juicy.gradientFrequencies st))%nat) /\
   (exists f, In f (Juicy.gradientFrequencies st) /\
      Juicy.playGradientSound st 0 12 10 =
      Juicy.GradientTone f
        [SetValueAtTime 0 0;
         LinearRampTo ((2 # 10) * Juicy.globalVolume st) (0 + (1 # 100));
         LinearRampTo ((15 # 100) * Juicy.globalVolume st) (0 + (5 # 100));
         LinearRampTo ((15 # 100) * Juicy.globalVolume st) (0 + (1 # 10));
         LinearRampTo 0 (0 + (15 # 100))]
        0 (0 + (15 # 100))) /\
   (forall k, 10 <= k ->
      Juicy.freq_index k 10 (List.length (Juicy.gradientFrequencies st)) =
        Some (List.length (Juicy.gradientFrequencies st) - 1)%nat /\
      Juicy.playGradientSound st 0 k 10 =
      Juicy.GradientTone (last (Juicy.gradientFrequencies st) 0)
        [SetValueAtTime 0 0;
         LinearRampTo ((2 # 10) * Juicy.globalVolume st) (0 + (1 # 100));
         LinearRampTo ((15 # 100) * Juicy.globalVolume st) (0 + (5 # 100));
         LinearRampTo ((15 # 100) * Juicy.globalVolume st) (0 + (1 # 10));
         LinearRampTo 0 (0 + (15 # 100))]
        0 (0 + (15 # 100)))) /\
  (Juicy.gradientFrequencies st = [] ->
   forall k, Juicy.playGradientSound st 0 k 10 = Juicy.GradientBadIndex) /\
  (forall k, k < 0 -> Juicy.playGradientSound st 0 k 10 = Juicy.GradientBadIndex) /\
  Juicy.playGradientSound (Juicy.mute st) 0 12 10 = Juicy.GradientSilent).
Proof.
  intros st.
  assert (Hm : Juicy.isMuted st = false) by reflexivity.
  assert (He : Juicy.synthetic_enabled st = true) by reflexivity.
  assert (Ht : 0 < 10) by reflexivity.
  assert (Hi : 0 <= 2) by discriminate.
  assert (Hij : 2 <= 12) by discriminate.
  do 5 (split; [assumption|]).
  exact (gradient_sound_index st 0 2 12 10 Hm He Ht Hi Hij).
Defined.

(** ** Synthesised sounds *)

Lemma nth_error_combine_seq {A} (hs : list A) (start k : nat) (h : A) :
  nth_error hs k = Some h ->
  nth_error (combine (seq start (List.length hs)) hs) k = Some ((start + k)%nat, h).
Proof.
  revert start k. induction hs as [|h0 hs IH]; intros start k Hk; [destruct k; discriminate|].
  destruct k as [|k]; simpl in *.
  - injection Hk as ->. rewrite Nat.add_0_r. reflexivity.
  - rewrite (IH (S start) k Hk). rewrite Nat.add_succ_r. reflexivity.
Qed.

Lemma detune_bounds (r : Q) : 0 <= r -> r < 1 -> -(3 # 2) <= (r - (1 # 2)) * 3 /\ (r - (1 # 2)) * 3 < 3 # 2.
Proof.
  intros H0 H1. apply Qle_Rle in H0. apply Qlt_Rlt in H1.
  split; [apply Rle_Qle|apply Rlt_Qlt];
    rewrite ?Q2R_opp, Q2R_mult, Q2R_minus in *;
    set (x := Q2R r) in *; unfold Q2R in *; simpl in *; lra.
Qed.

(** X21: [playSound] gives its base oscillator the configured frequency at
    gain 0.7 * 0.15, and the harmonic at index [k] the frequency times that
    harmonic at gain 0.3 / (k + 1) * 0.15; with [Math.random()] in [0, 1)
    every oscillator is detuned by at least -1.5 and less than 1.5 cents. *)
Theorem playSound_oscillator_levels (now : Q) (rnd : nat -> Q) (cfg : Synth.synth_config)
  (Hr : forall k, 0 <= rnd k /\ rnd k < 1) :
  let s := Synth.playSound now rnd cfg in
  (exists o, nth_error (Synth.oscillators s) 0 = Some o /\
     Synth.osc_frequency o = Synth.frequency cfg /\ Synth.osc_gain o == 21 # 200) /\
  (forall k h, nth_error (default [] (Synth.harmonics cfg)) k = Some h ->
     exists o, nth_error (Synth.oscillators s) (S k) = Some o /\
       Synth.osc_frequency o = Synth.frequency cfg * h /\
       Synth.osc_gain o = (3 # 10) / PackSrc.nat_Q (S k) * (15 # 100)) /\
  Forall (fun o => -(3 # 2) <= Synth.osc_detune o /\ Synth.osc_detune o < 3 # 2)
    (Synth.oscillators s).
Proof.
  intros s. unfold s, Synth.playSound. cbn [Synth.oscillators].
  split; [|split].
  - eexists; split; [reflexivity|]. split; reflexivity.
  - intros k h Hk. destruct (Synth.harmonics cfg) as [hs|]; [|destruct k; discriminate].
    simpl in Hk. rewrite !nth_error_map. simpl. rewrite nth_error_map.
    rewrite (nth_error_combine_seq hs 0 k h Hk). simpl.
    eexists; split; [reflexivity|]. split; reflexivity.
  - apply Forall_forall. intros o Ho.
    apply in_map_iff in Ho. destruct Ho as [o1 [<- Ho]].
    apply in_map_iff in Ho. destruct Ho as [o2 [<- Ho]].
    cbn [Synth.osc_detune Synth.stop_at Synth.start_at].
    destruct Ho as [<-|Ho].
    + apply detune_bounds; apply Hr.
    + destruct (Synth.harmonics cfg) as [hs|]; [|destruct Ho].
      apply in_map_iff in Ho. destruct Ho as [[idx h] [<- _]].
      apply detune_bounds; apply Hr.
Qed.

Lemma playSound_oscillator_levels_witness :
  let cfg := {| Synth.frequency := 440;
                Synth.envelope_of := {| Synth.attack := 1 # 100; Synth.decay := 1 # 10;
                                        Synth.sustain := 1 # 2; Synth.release := 1 # 5 |};
                Synth.modulation := None; Synth.harmonics := Some [2; 3];
                Synth.filter := None |} in
  let rnd := fun _ : nat => 1 # 4 in
  (forall k, 0 <= rnd k /\ rnd k < 1) /\
  (let s := Synth.playSound 0 rnd cfg in
  (exists o, nth_error (Synth.oscillators s) 0 = Some o /\
     Synth.osc_frequency o = Synth.frequency cfg /\ Synth.osc_gain o == 21 # 200) /\
  (forall k h, nth_error (default [] (Synth.harmonics cfg)) k = Some h ->
     exists o, nth_error (Synth.oscillators s) (S k) = Some o /\
       Synth.osc_frequency o = Synth.frequency cfg * h /\
       Synth.osc_gain o = (3 # 10) / PackSrc.nat_Q (S k) * (15 # 100)) /\
  Forall (fun o => -(3 # 2) <= Synth.osc_detune o /\ Synth.osc_detune o < 3 # 2)
    (Synth.oscillators s)).
Proof.
  intros cfg rnd.
  assert (Hr : forall k, 0 <= rnd k /\ rnd k < 1).
  { intros k. split; [discriminate|reflexivity]. }
  split; [exact Hr|].
  exact (playSound_oscillator_levels 0 rnd cfg Hr).
Defined.

Ltac qle_num := unfold Qle; simpl; lia.

(** X22: each of the five [buttonSounds] plays without an LFO through a
    lowpass filter; with zero sustain its master gain is down to 0 after
    attack + decay, at most 0.13 s, while every oscillator keeps running
    until the end of the release, between 0.135 s and 0.28 s after the
    start. *)
Theorem buttonSounds_shape (now : Q) (rnd : nat -> Q) :
  Forall (fun '(_, s) =>
     Synth.lfo_of s = None /\
     (exists f res, Synth.filter_node s = Some (Presets.lowpass f res)) /\
     exists a d, nth_error (Synth.master_gain s) 2 = Some (LinearRampTo 0 (now + a + d)) /\
       a + d <= 13 # 100 /\
       Forall (fun o => exists t, Synth.osc_stop o = Some (now + t) /\
                                  135 # 1000 <= t /\ t <= 28 # 100)
         (Synth.oscillators s))
    (Presets.buttonSounds now rnd).
Proof.
  unfold Presets.buttonSounds, Presets.SOUND_PRESETS.
  repeat (apply Forall_cons || apply Forall_nil); simpl;
    (split; [reflexivity|]); (split; [do 2 eexists; reflexivity|]);
    do 2 eexists; (split; [reflexivity|]); (split; [qle_num|]);
    repeat (apply Forall_cons || apply Forall_nil);
    eexists; (split; [reflexivity|]); split; qle_num.
Qed.

(** ** Pack information *)

Lemma assoc_nodup_In {A} (l : list (string * A)) k v :
  NoDup (map fst l) -> In (k, v) l -> assoc k l = Some v.
Proof.
  induction l as [|[k' v'] l IH]; simpl; [intros _ []|].
  intros Hnd Hin. inversion Hnd as [|? ? Hnot Hnd']. subst.
  destruct Hin as [Heq|Hin].
  - injection Heq as -> ->. rewrite String.eqb_refl. reflexivity.
  - destruct (String.eqb k k') eqn:E.
    + apply String.eqb_eq in E. subst k'. exfalso. apply Hnot.
      apply (in_map fst _ _ Hin).
    + apply IH; assumption.
Qed.

Lemma soundCount_acc (l : list (string * list (string * sound_entry))) (a : nat) :
  fold_left (fun acc cat => (acc + List.length (snd cat))%nat) l a =
  (a + fold_left (fun acc cat => (acc + List.length (snd cat))%nat) l O)%nat.
Proof.
  revert a. induction l as [|c l IH]; intros a; simpl; [lia|].
  rewrite IH, (IH (List.length (snd c))). lia.
Qed.

(** X23: for a manifest whose categories are distinct (as the keys of a JS
    object are), [preload()] with no argument starts exactly
    [getInfo().soundCount] loads, one per action of every category. *)
Theorem preload_count (m : manifest) (basePath : string) (support : format_support)
  (Hnd : NoDup (map fst (m_sounds m))) :
  List.length (PackSrcOps.preload_urls m basePath support None) = PackSrcOps.soundCount m.
Proof.
  unfold PackSrcOps.preload_urls, PackSrcOps.soundCount. simpl.
  assert (Hgen : forall suf, (forall c acts, In (c, acts) suf -> In (c, acts) (m_sounds m)) ->
    List.length (flat_map (fun category =>
        match assoc category (m_sounds m) with
        | None => []
        | Some actions =>
            map (fun ac => PackSrcOps.url_of m basePath support
                             (PackSrcOps.entry_file (snd ac))) actions
        end) (map fst suf)) =
    fold_left (fun acc cat => (acc + List.length (snd cat))%nat) suf O).
  { induction suf as [|[c acts] suf IH]; intros Hsub; [reflexivity|].
    simpl. rewrite (assoc_nodup_In _ c acts Hnd (Hsub c acts (or_introl eq_refl))).
    rewrite length_app, length_map, IH by (intros c' a' H; apply Hsub; right; exact H).
    rewrite (soundCount_acc suf (List.length acts)). lia. }
  apply Hgen. auto.
Qed.

Lemma preload_count_witness :
  NoDup (map fst (m_sounds variant_manifest)) /\
  List.length (PackSrcOps.preload_urls variant_manifest "/s" (fun _ => true) None) =
  PackSrcOps.soundCount variant_manifest.
Proof.
  assert (Hnd : NoDup (map fst (m_sounds variant_manifest))).
  { constructor; [intros []|constructor]. }
  split; [exact Hnd|].
  exact (preload_count variant_manifest "/s" (fun _ => true) Hnd).
Defined.
